(** * ASTRiDE streak detection: the [Streak] class of [astride/detect.py]

    A shallow embedding of the methods of [Streak] and the properties of
    the chain traversal ([__find_box]), of the box-plotting loop of
    [plot_figures], of the pipeline order in [detect], of the report
    written by [write_outputs] and of the output path set by [__init__]. *)

From Stdlib Require Import Ascii.
From stdpp Require Import list relations strings.

Local Open Scope Z_scope.

(** ** Data model *)

(** An edge is a Python dict built by [EDGE] (astride/utils/edge.py); the
    record has the keys that the modelled methods of [detect.py] read or
    write (the contour points [x], [y], used only to draw the contours,
    are left out).  [index] and [connectivity] are Python ints ([-1] is
    the "no link" sentinel), the geometric values are floats, kept
    abstract in the type [num]: the traversal only copies them. *)
Record Edge (num : Type) : Type := mkEdge {
  index : Z;
  x_center : num;
  y_center : num;
  area : num;
  perimeter : num;
  shape_factor : num;
  radius_deviation : num;
  slope_angle : num;
  intercept : num;
  connectivity : Z;
  x_min : num;
  x_max : num;
  y_min : num;
  y_max : num;
  box_plotted : bool
}.

Arguments mkEdge {num}.
Arguments index {num}.
Arguments x_center {num}.
Arguments y_center {num}.
Arguments area {num}.
Arguments perimeter {num}.
Arguments shape_factor {num}.
Arguments radius_deviation {num}.
Arguments slope_angle {num}.
Arguments intercept {num}.
Arguments connectivity {num}.
Arguments x_min {num}.
Arguments x_max {num}.
Arguments y_min {num}.
Arguments y_max {num}.
Arguments box_plotted {num}.

(** Exceptions raised by the modelled statements. *)
Inductive exn : Type :=
| IndexError      (* [...][0] on an empty list, ''[-1] *)
| ValueError      (* np.min / np.max of an empty sequence *)
| AttributeError  (* an attribute of None *)
| TypeError.      (* an operation applied to None, a format mismatch *)

(** Result of running a piece of code under a bound [depth] on the number
    of nested calls: it returned, it raised, or it needs more than [depth]
    nested calls ([Overrun]: the code itself has neither returned nor
    raised; CPython ends such a run from outside, when the interpreter's
    recursion limit is exceeded). *)
Inductive outcome (A : Type) : Type :=
| Return (a : A)
| Raise (e : exn)
| Overrun.

Arguments Return {A}.
Arguments Raise {A}.
Arguments Overrun {A}.

Section Aggregator.
Context {num : Type}.

(** [edge['box_plotted'] = True] *)
Definition set_box_plotted (e : Edge num) : Edge num :=
  mkEdge (index e) (x_center e) (y_center e) (area e) (perimeter e)
         (shape_factor e) (radius_deviation e) (slope_angle e) (intercept e)
         (connectivity e) (x_min e) (x_max e) (y_min e) (y_max e) true.

(** [edge['box_plotted'] = False] *)
Definition reset_box_plotted (e : Edge num) : Edge num :=
  mkEdge (index e) (x_center e) (y_center e) (area e) (perimeter e)
         (shape_factor e) (radius_deviation e) (slope_angle e) (intercept e)
         (connectivity e) (x_min e) (x_max e) (y_min e) (y_max e) false.

(** The objects [__find_box] works on: the list of edge dicts and the two
    caller-supplied lists [xs] and [ys], all three mutated in place.  The
    list holds one dict per edge, so a position of [st_edges] stands for
    the identity of the dict stored there. *)
Record store : Type := Store {
  st_edges : list (Edge num);
  st_xs : list (list num);
  st_ys : list (list num)
}.

(** What a call of [__find_box] evaluates to: the tuple [(xs, ys)] of the
    [else] branch (the two list objects, shown with their contents at the
    time of the return), or [None] when the function body ends without a
    [return]. *)
Inductive pyval : Type :=
| PyNone
| PyTuple (xs ys : list (list num)).

(** [[edge for edge in edges if edge['index'] == n]]: the comprehension. *)
Definition with_index (n : Z) (edges : list (Edge num)) : list (Edge num) :=
  filter (λ edge, index edge = n) edges.

(** [[edge for edge in edges if edge['index'] == n][0]] together with the
    position of that dict in [edges]; [None] when the comprehension is
    empty (Python raises IndexError). *)
Definition first_with_index (n : Z) (edges : list (Edge num))
  : option (nat * Edge num) :=
  list_find (λ edge, index edge = n) edges.

(** [Streak.__find_box(self, n, edges, xs, ys)], lines 103-124. *)
Fixpoint __find_box (depth : nat) (n : Z) (st : store) : outcome pyval * store :=
  match depth with
  | O => (Overrun, st)
  | S depth' =>
    match first_with_index n (st_edges st) with
    | None => (Raise IndexError, st)
    | Some (i, current_edge) =>
      let edges1 := <[i := set_box_plotted current_edge]> (st_edges st) in
      let xs1 := st_xs st ++ [[x_min current_edge; x_max current_edge]] in
      let ys1 := st_ys st ++ [[y_min current_edge; y_max current_edge]] in
      let st1 := Store edges1 xs1 ys1 in
      if decide (connectivity current_edge ≠ -1) then
        match __find_box depth' (connectivity current_edge) st1 with
        | (Return _, st2) => (Return PyNone, st2)
        | (Raise e, st2) => (Raise e, st2)
        | (Overrun, st2) => (Overrun, st2)
        end
      else (Return (PyTuple xs1 ys1), st1)
    end
  end.

End Aggregator.

Arguments store : clear implicits.
Arguments pyval : clear implicits.

(** ** NumPy reductions used by [plot_figures] *)

Section NumPy.
Context {num : Type} (num_le : num → num → bool).

Definition minimum (a b : num) : num := if num_le a b then a else b.
Definition maximum (a b : num) : num := if num_le a b then b else a.

(** [np.min(xs)] for a list [xs] of equally long lists: the minimum over
    all entries; ValueError ([None]) on an empty sequence. *)
Definition np_min (xs : list (list num)) : option num :=
  match concat xs with
  | [] => None
  | a :: rest => Some (foldl minimum a rest)
  end.

(** [np.max(xs)]. *)
Definition np_max (xs : list (list num)) : option num :=
  match concat xs with
  | [] => None
  | a :: rest => Some (foldl maximum a rest)
  end.

End NumPy.

(** ** The box-plotting loop of [plot_figures], lines 151-168 *)

(** Calls the loop makes that the properties below count: the invocations
    of [__find_box] and the boxes handed to [pl.fill]. *)
Inductive plot_event : Type :=
| EvFindBox (n : Z)
| EvFill (box_x box_y : list Z).

Definition box_margin : Z := 10.

(** The body of the [if not edge['box_plotted']] branch after the call of
    [__find_box]: lines 161-167.  [shape] is [self.image.shape]. *)
Definition fill_box (shape : Z * Z) (xs ys : list (list Z)) : outcome plot_event :=
  match np_min Z.leb xs, np_max Z.leb xs, np_min Z.leb ys, np_max Z.leb ys with
  | Some xlo, Some xhi, Some ylo, Some yhi =>
    let x_min := Z.max (xlo - box_margin) 0 in
    let x_max := Z.min (xhi + box_margin) shape.1 in
    let y_min := Z.max (ylo - box_margin) 0 in
    let y_max := Z.min (yhi + box_margin) shape.2 in
    Return (EvFill [x_min; x_min; x_max; x_max] [y_min; y_max; y_max; y_min])
  | _, _, _, _ => Raise ValueError
  end.

(** [for n, edge in enumerate(edges): if not edge['box_plotted']: ...]
    over the positions still to visit.  The list is never resized, so
    [enumerate] yields the dict stored at each position, read in its
    current state.  [depth] bounds the nesting of each [__find_box] call. *)
Fixpoint plot_boxes (depth : nat) (shape : Z * Z) (positions : list nat)
    (edges : list (Edge Z)) (log : list plot_event)
  : outcome unit * (list (Edge Z) * list plot_event) :=
  match positions with
  | [] => (Return tt, (edges, log))
  | i :: rest =>
    match edges !! i with
    | None => (Raise IndexError, (edges, log))
    | Some edge =>
      if box_plotted edge then plot_boxes depth shape rest edges log
      else
        let log1 := log ++ [EvFindBox (index edge)] in
        match __find_box depth (index edge) (Store edges [] []) with
        | (Return _, st) =>
          match fill_box shape (st_xs st) (st_ys st) with
          | Return ev =>
            plot_boxes depth shape rest
              (alter set_box_plotted i (st_edges st)) (log1 ++ [ev])
          | Raise e => (Raise e, (st_edges st, log1))
          | Overrun => (Overrun, (st_edges st, log1))
          end
        | (Raise e, st) => (Raise e, (st_edges st, log1))
        | (Overrun, st) => (Overrun, (st_edges st, log1))
        end
    end
  end.

(** The whole loop over [enumerate(edges)]. *)
Definition plot_figures_boxes (depth : nat) (shape : Z * Z) (edges : list (Edge Z))
  : outcome unit * (list (Edge Z) * list plot_event) :=
  plot_boxes depth shape (seq 0 (length edges)) edges [].

(** Start indices of the [__find_box] invocations of a log, in order. *)
Definition calls (log : list plot_event) : list Z :=
  omap (λ ev, match ev with EvFindBox n => Some n | EvFill _ _ => None end) log.

(** The boxes drawn, in order. *)
Definition fills (log : list plot_event) : list (list Z * list Z) :=
  omap (λ ev, match ev with EvFill bx by_ => Some (bx, by_) | EvFindBox _ => None end) log.

(** ** The corners of a box on the numbers of the code, lines 161-166 *)

Section Corners.
Context {num : Type}.

(** The collected coordinates are NumPy floats, [0] and the entries of
    [self.image.shape] are Python ints; [num] holds them all.
    [num_le a b] is [a <= b] and [num_lt a b] is [a < b];
    [minus_margin v] is [v - box_margin] and [plus_margin v] is
    [v + box_margin], as the arithmetic of the coordinates computes
    them; [zero] is [0]. *)
Variable num_le num_lt : num → num → bool.
Variable minus_margin plus_margin : num → num.
Variable zero : num.

(** The builtins [max(a, b)] and [min(a, b)]: the first argument, unless
    the second compares strictly above (below) it. *)
Definition py_max (a b : num) : num := if num_lt a b then b else a.
Definition py_min (a b : num) : num := if num_lt b a then b else a.

(** Lines 161-166: the lists [box_x] and [box_y]; ValueError when
    [np.min] or [np.max] is given an empty sequence. *)
Definition box_corners (shape : num * num) (xs ys : list (list num))
  : outcome (list num * list num) :=
  match np_min num_le xs, np_max num_le xs, np_min num_le ys, np_max num_le ys with
  | Some xlo, Some xhi, Some ylo, Some yhi =>
    let x_min := py_max (minus_margin xlo) zero in
    let x_max := py_min (plus_margin xhi) shape.1 in
    let y_min := py_max (minus_margin ylo) zero in
    let y_max := py_min (plus_margin yhi) shape.2 in
    Return ([x_min; x_min; x_max; x_max], [y_min; y_max; y_max; y_min])
  | _, _, _, _ => Raise ValueError
  end.

End Corners.

(** ** [write_outputs], lines 197-218 *)

(** The newline character of ['\n']. *)
Definition nl : ascii := "010"%char.

Fixpoint has_newline (s : string) : bool :=
  match s with
  | EmptyString => false
  | String c s' => if decide (c = nl) then true else has_newline s'
  end.

(** The lines of a text file, as [str.splitlines] cuts a text at ['\n']:
    terminators dropped, a last line without terminator kept. *)
Fixpoint split_lines (s : string) : list string :=
  match s with
  | EmptyString => []
  | String c s' =>
    if decide (c = nl) then EmptyString :: split_lines s'
    else match split_lines s' with
         | [] => [String c EmptyString]
         | l :: ls => String c l :: ls
         end
  end.

(** A parsed format string of the [%] operator: literal text and the two
    conversions the report uses, [%<width>d] and [%<width>.<prec>f]. *)
Inductive directive : Type :=
| Lit (s : string)
| ConvD (width : nat)
| ConvF (width prec : nat).

Section Report.
Context {num : Type}.

(** How the interpreter renders one conversion: [render_d w z] is
    ['%<w>d' % z] and [render_f w p x] is ['%<w>.<p>f' % x]. *)
Variable render_d : nat → Z → string.
Variable render_f : nat → nat → num → string.

Inductive fmt_arg : Type :=
| ArgInt (z : Z)
| ArgFloat (x : num).

(** [fmt % args]: the conversions consume the tuple from left to right;
    [None] stands for the TypeError of a tuple that does not match. *)
Fixpoint py_format (fmt : list directive) (args : list fmt_arg) : option string :=
  match fmt with
  | [] => match args with [] => Some EmptyString | _ :: _ => None end
  | Lit s :: fmt' => (λ r, s +:+ r) <$> py_format fmt' args
  | ConvD w :: fmt' =>
    match args with
    | ArgInt z :: args' => (λ r, render_d w z +:+ r) <$> py_format fmt' args'
    | _ => None
    end
  | ConvF w p :: fmt' =>
    match args with
    | ArgFloat x :: args' => (λ r, render_f w p x +:+ r) <$> py_format fmt' args'
    | _ => None
    end
  end.

(** ['#ID x_center y_center area perimeter shape_factor ' +
     'radius_deviation slope_angle intercept connectivity\n'] *)
Definition header : string :=
  "#ID x_center y_center area perimeter shape_factor " +:+
  ("radius_deviation slope_angle intercept connectivity" +:+ String nl EmptyString).

(** ['%2d %7.2f %7.2f %6.1f %6.1f %6.3f %6.2f %5.2f %7.2f %2d\n'] *)
Definition line_format : list directive :=
  [ConvD 2; Lit " "; ConvF 7 2; Lit " "; ConvF 7 2; Lit " "; ConvF 6 1; Lit " ";
   ConvF 6 1; Lit " "; ConvF 6 3; Lit " "; ConvF 6 2; Lit " "; ConvF 5 2; Lit " ";
   ConvF 7 2; Lit " "; ConvD 2; Lit (String nl EmptyString)].

(** The tuple of line 211-216. *)
Definition line_args (edge : Edge num) : list fmt_arg :=
  [ArgInt (index edge); ArgFloat (x_center edge); ArgFloat (y_center edge);
   ArgFloat (area edge); ArgFloat (perimeter edge); ArgFloat (shape_factor edge);
   ArgFloat (radius_deviation edge); ArgFloat (slope_angle edge);
   ArgFloat (intercept edge); ArgInt (connectivity edge)].

(** The [for] loop of lines 209-217 over the edges still to write; [fp]
    is the text written to the file so far. *)
Fixpoint write_lines (streaks : list (Edge num)) (fp : string) : outcome string :=
  match streaks with
  | [] => Return fp
  | edge :: rest =>
    match py_format line_format (line_args edge) with
    | None => Raise TypeError
    | Some line => write_lines rest (fp +:+ line)
    end
  end.

(** [write_outputs]: the text of [streaks.txt] when the file is closed.
    (Creating the folder and opening the file are the operating system's.) *)
Definition write_outputs (streaks : list (Edge num)) : outcome string :=
  write_lines streaks header.

(** The header line and the line of an edge as the claim lists them: the
    ten fields in order, separated by single blanks, without the
    terminator. *)
Definition header_line : string :=
  "#ID x_center y_center area perimeter shape_factor radius_deviation slope_angle intercept connectivity".

Definition report_fields (edge : Edge num) : list string :=
  [render_d 2 (index edge); render_f 7 2 (x_center edge);
   render_f 7 2 (y_center edge); render_f 6 1 (area edge);
   render_f 6 1 (perimeter edge); render_f 6 3 (shape_factor edge);
   render_f 6 2 (radius_deviation edge); render_f 5 2 (slope_angle edge);
   render_f 7 2 (intercept edge); render_d 2 (connectivity edge)].

(** [' '.join(fields)] *)
Fixpoint join_blank (fields : list string) : string :=
  match fields with
  | [] => EmptyString
  | [f] => f
  | f :: rest => f +:+ (" " +:+ join_blank rest)
  end.

(** The text of the lines of a list of edges. *)
Fixpoint report_text (es : list (Edge num)) : string :=
  match es with
  | [] => EmptyString
  | e :: rest => (join_blank (report_fields e) +:+ String nl EmptyString) +:+ report_text rest
  end.

End Report.

(** ** The pipeline: [detect], [__remove_background], [__detect_streaks] *)

(** The collaborator calls of one run, in the order they are made. *)
Inductive stage : Type :=
| StBackground     (* photutils Background(...) *)
| StFindContours   (* skimage measure.find_contours *)
| StQuantify       (* EDGE.quantify *)
| StFilter         (* EDGE.filter_edges *)
| StLink.          (* EDGE.connect_edges *)

Section Pipeline.
Context {num ndarray contour bkg_t edge_obj : Type}.

(** The collaborators, none of which is defined in [detect.py]:
    photutils' [Background] and its two attributes, array subtraction,
    float multiplication, skimage's [find_contours], and the [EDGE] class
    of astride/utils/edge.py (its constructor, the three stages that
    update the object and [get_edges]). *)
Variable Background : ndarray → Z * Z → bkg_t.
Variable background : bkg_t → ndarray.
Variable background_rms_median : bkg_t → num.
Variable subtract : ndarray → ndarray → ndarray.
Variable times : num → num → num.
Variable find_contours : ndarray → num → list contour.
Variable EDGE : list contour → edge_obj.
Variable quantify : edge_obj → edge_obj.
Variable filter_edges : edge_obj → edge_obj.
Variable connect_edges : edge_obj → edge_obj.
Variable get_edges : edge_obj → list (Edge num).

(** The attributes of a [Streak] instance that the pipeline touches, and
    the log of collaborator calls. *)
Record Streak : Type := mkStreak {
  raw_image : ndarray;
  __bkg : option bkg_t;
  background_map : option ndarray;
  image : option ndarray;
  raw_edges : option (list (Edge num));
  streaks : option (list (Edge num));
  bkg_box_size : Z;
  contour_threshold : num;
  stages : list stage
}.

(** [__remove_background], lines 65-71. *)
Definition __remove_background (self : Streak) : outcome unit * Streak :=
  let bkg := Background (raw_image self) (bkg_box_size self, bkg_box_size self) in
  (Return tt,
   mkStreak (raw_image self) (Some bkg) (Some (background bkg))
            (Some (subtract (raw_image self) (background bkg)))
            (raw_edges self) (streaks self) (bkg_box_size self)
            (contour_threshold self) (stages self ++ [StBackground])).

(** [__detect_streaks], lines 73-89.  [raw_edges] keeps the value that
    [get_edges] had after [quantify]. *)
Definition __detect_streaks (self : Streak) : outcome unit * Streak :=
  match __bkg self with
  | None => (Raise AttributeError, self)
  | Some bkg =>
    let bkg_rms := background_rms_median bkg in
    match image self with
    | None => (Raise TypeError, self)
    | Some img =>
      let contours := find_contours img (times bkg_rms (contour_threshold self)) in
      let edge := EDGE contours in
      let edge := quantify edge in
      let raw := get_edges edge in
      let edge := filter_edges edge in
      let edge := connect_edges edge in
      (Return tt,
       mkStreak (raw_image self) (__bkg self) (background_map self) (image self)
                (Some raw) (Some (get_edges edge)) (bkg_box_size self)
                (contour_threshold self)
                (stages self ++ [StFindContours; StQuantify; StFilter; StLink]))
    end
  end.

(** [detect], lines 57-63. *)
Definition detect (self : Streak) : outcome unit * Streak :=
  match __remove_background self with
  | (Return _, self1) => __detect_streaks self1
  | (Raise e, self1) => (Raise e, self1)
  | (Overrun, self1) => (Overrun, self1)
  end.

End Pipeline.

(** ** The output path set by [__init__], lines 47-52 *)

(** The text after the last [sep]; [None] when [sep] does not occur. *)
Fixpoint after_last (sep : ascii) (p : string) : option string :=
  match p with
  | EmptyString => None
  | String c p' =>
    match after_last sep p' with
    | Some r => Some r
    | None => if decide (c = sep) then Some p' else None
    end
  end.

(** [os.path.basename(p)] of posixpath: [p[p.rfind('/') + 1:]]. *)
Definition basename (p : string) : string :=
  default p (after_last "/"%char p).

(** [s.split(sep)[0]]: the text before the first [sep]. *)
Fixpoint before_first (sep : ascii) (s : string) : string :=
  match s with
  | EmptyString => EmptyString
  | String c s' => if decide (c = sep) then EmptyString else String c (before_first sep s')
  end.

(** [s[-1]]; [None] stands for the IndexError of the empty string. *)
Fixpoint last_char (s : string) : option ascii :=
  match s with
  | EmptyString => None
  | String c EmptyString => Some c
  | String _ s' => last_char s'
  end.

(** The value of [self.output_path] when [__init__] returns; the keyword
    argument [output_path] is [None] or a string. *)
Definition init_output_path (filename : string) (output_path : option string)
  : outcome string :=
  let output_path :=
    match output_path with
    | None => "./" +:+ (before_first "."%char (basename filename) +:+ "/")
    | Some p => p
    end in
  match last_char output_path with
  | None => Raise IndexError
  | Some c =>
    if decide (c ≠ "/"%char) then Return (output_path +:+ "/")
    else Return output_path
  end.

(** ** Connectivity chains *)

Section Chains.
Context {num : Type}.
Implicit Types (es : list (Edge num)) (e : Edge num) (n m : Z).

(** The edge addressed by [a] is linked to [b]: its [connectivity] is
    [b], and [b] is not the sentinel. *)
Definition link es (a b : Z) : Prop :=
  ∃ i e, first_with_index a es = Some (i, e) ∧ connectivity e = b ∧ b ≠ -1.

(** The edge addressed by [a] carries the "no link" sentinel. *)
Definition at_sentinel es (a : Z) : Prop :=
  ∃ i e, first_with_index a es = Some (i, e) ∧ connectivity e = -1.

(** Following [connectivity] from [n] reaches the sentinel. *)
Definition reaches_sentinel es n : Prop :=
  ∃ m, rtc (link es) n m ∧ at_sentinel es m.

(** [p] is an edge (with its position) reachable from [n]. *)
Definition reachable_edge es n (p : nat * Edge num) : Prop :=
  ∃ m, rtc (link es) n m ∧ first_with_index m es = Some p.

(** Some edge reachable from [n] has a [connectivity] that is neither the
    sentinel nor the index of an edge of the collection. *)
Definition reaches_dangling es n : Prop :=
  ∃ m c, rtc (link es) n m ∧ link es m c ∧ first_with_index c es = None.

(** [n] lies on a connectivity cycle. *)
Definition on_cycle es n : Prop := tc (link es) n n.

(** [chain es n l]: following [connectivity] from [n] visits the edges
    [l], in this order, and ends at the sentinel. *)
Inductive chain es : Z → list (nat * Edge num) → Prop :=
| chain_last n i e :
    first_with_index n es = Some (i, e) →
    connectivity e = -1 →
    chain es n [(i, e)]
| chain_link n i e l :
    first_with_index n es = Some (i, e) →
    connectivity e ≠ -1 →
    chain es (connectivity e) l →
    chain es n ((i, e) :: l).

(** The structural invariant of the acyclicity property: from every edge
    the sentinel is reached within [length es] steps. *)
Definition acyclic_within es : Prop :=
  ∀ e, e ∈ es → ∃ l, chain es (index e) l ∧ (length l ≤ length es)%nat.

(** The Linker's invariant: every link goes from a higher index to a
    lower index that exists in the collection. *)
Definition linker_invariant es : Prop :=
  ∀ e, e ∈ es →
    connectivity e = -1 ∨
    (connectivity e < index e ∧ ∃ e', e' ∈ es ∧ index e' = connectivity e).

(** The edges whose index is at most [n]. *)
Definition up_to n es : list (Edge num) := filter (λ e, index e ≤ n) es.

(** A chain root: an edge that is not the connectivity target of any
    edge of the collection. *)
Definition is_target es (c : Z) : Prop :=
  ∃ e, e ∈ es ∧ connectivity e = c ∧ c ≠ -1.
Definition is_root es e : Prop := e ∈ es ∧ ¬ is_target es (index e).

(** Every link targets an edge that comes later in the list. *)
Definition forward_links es : Prop :=
  ∀ i e j e', es !! i = Some e → connectivity e ≠ -1 →
    first_with_index (connectivity e) es = Some (j, e') → (i < j)%nat.

(** The edge at position [j] carries the mark. *)
Definition flagged es (j : nat) : Prop :=
  ∃ e, es !! j = Some e ∧ box_plotted e = true.

(** No edge has been marked yet. *)
Definition unplotted es : Prop := ∀ e, e ∈ es → box_plotted e = false.

(** The pairs appended for an edge. *)
Definition xbox (p : nat * Edge num) : list num := [x_min p.2; x_max p.2].
Definition ybox (p : nat * Edge num) : list num := [y_min p.2; y_max p.2].

(** The marks left on the edges at the positions [ps]. *)
Definition mark_all (ps : list nat) es : list (Edge num) :=
  foldl (λ acc p, alter set_box_plotted p acc) es ps.

(** The value a call returns at the end of the chain [l]. *)
Definition chain_value (l : list (nat * Edge num)) (xs ys : list (list num))
  : pyval num :=
  match l with
  | [_] => PyTuple (xs ++ (xbox <$> l)) (ys ++ (ybox <$> l))
  | _ => PyNone
  end.

(** Equality of two collections up to the [box_plotted] flags. *)
Definition same_links es es' : Prop :=
  reset_box_plotted <$> es = reset_box_plotted <$> es'.

(** [e'] is [e], or [e] with [box_plotted] set. *)
Definition same_or_marked e e' : Prop := e' = e ∨ e' = set_box_plotted e.

End Chains.

(** A total preorder given by a boolean comparison, as [<=] is on the
    floats without NaN. *)
Record total_order {num : Type} (num_le : num → num → bool) : Prop := {
  ord_refl : ∀ a, num_le a a = true;
  ord_trans : ∀ a b c, num_le a b = true → num_le b c = true → num_le a c = true;
  ord_total : ∀ a b, num_le a b = true ∨ num_le b a = true
}.

(** [m] bounds [l] from below and some element of [l] is below [m]: [m]
    is, up to the equivalence of the order, the least element of [l]. *)
Definition least_in {num : Type} (num_le : num → num → bool)
    (m : num) (l : list num) : Prop :=
  (∃ a, a ∈ l ∧ num_le a m = true) ∧ ∀ a, a ∈ l → num_le m a = true.

(** The same from above. *)
Definition greatest_in {num : Type} (num_le : num → num → bool)
    (m : num) (l : list num) : Prop :=
  (∃ a, a ∈ l ∧ num_le m a = true) ∧ ∀ a, a ∈ l → num_le a m = true.

(** What the properties of the corners use of the arithmetic: the
    comparison is a total preorder with [a < b] the negation of
    [b <= a] (no NaN among the values), and taking or adding the margin
    neither wraps around nor reverses an order
    ([v - box_margin <= v <= v + box_margin], both monotone). *)
Record margin_arithmetic {num : Type} (num_le num_lt : num → num → bool)
    (minus_margin plus_margin : num → num) : Prop := {
  ma_order : total_order num_le;
  ma_lt : ∀ a b, num_lt a b = negb (num_le b a);
  ma_minus_below : ∀ v, num_le (minus_margin v) v = true;
  ma_minus_mono : ∀ a b, num_le a b = true →
                         num_le (minus_margin a) (minus_margin b) = true;
  ma_plus_above : ∀ v, num_le v (plus_margin v) = true;
  ma_plus_mono : ∀ a b, num_le a b = true →
                        num_le (plus_margin a) (plus_margin b) = true
}.

(** ** Example collections *)

(** The two-edge chain of the aggregation example: edge 1, with bounding
    box [25,45]x[53,93], linked to edge 0 with [0,20]x[0,43]. *)
Definition e0 : Edge Z := mkEdge 0 10 21 0 0 0 0 0 0 (-1) 0 20 0 43 false.
Definition e1 : Edge Z := mkEdge 1 35 73 0 0 0 0 0 0 0 25 45 53 93 false.
Definition two_chain : list (Edge Z) := [e0; e1].

(** Two edges whose connectivity fields point to each other. *)
Definition c0 : Edge Z := mkEdge 0 10 21 0 0 0 0 0 0 1 0 20 0 43 false.
Definition c1 : Edge Z := mkEdge 1 35 73 0 0 0 0 0 0 0 25 45 53 93 false.
Definition two_cycle : list (Edge Z) := [c0; c1].

(** An edge whose connectivity names a missing index. *)
Definition d0 : Edge Z := mkEdge 0 10 21 0 0 0 0 0 0 7 0 20 0 43 false.
Definition one_dangling : list (Edge Z) := [d0].

(** The loop invariant before position [k] is visited, for the original
    collection [es0]: the edges are those of [es0] up to their flags; a
    flag is set only at a position already passed or on the target of a
    link; the invocations so far started at distinct positions before
    [k], among them every root before [k]; one box per invocation. *)
Definition plot_inv (es0 : list (Edge Z)) (k : nat) (es : list (Edge Z))
    (log : list plot_event) : Prop :=
  same_links es0 es ∧
  (∀ j e, es !! j = Some e → box_plotted e = true →
     (j < k)%nat ∨ is_target es0 (index e)) ∧
  calls log `sublist_of` (index <$> take k es0) ∧
  (∀ j e, (j < k)%nat → es0 !! j = Some e → ¬ is_target es0 (index e) →
     index e ∈ calls log) ∧
  length (fills log) = length (calls log).

(** What the loop keeps in addition when every link points forward in
    the list: every position already passed is marked, the marked edges
    are closed under following a link, and no invocation so far started
    at the target of a link. *)
Definition plot_inv_fwd (es0 : list (Edge Z)) (k : nat) (es : list (Edge Z))
    (log : list plot_event) : Prop :=
  (∀ j, (j < k)%nat → (j < length es0)%nat → flagged es j) ∧
  (∀ j e j' e', es !! j = Some e → box_plotted e = true →
     connectivity e ≠ -1 →
     first_with_index (connectivity e) es0 = Some (j', e') → flagged es j') ∧
  (∀ n, n ∈ calls log → ¬ is_target es0 n).

(** A traversal that starts at the edge at position [i] visits the edge
    at position [j]: following [connectivity] from the one leads to the
    other (in no step when [i = j]). *)
Definition visits (es : list (Edge Z)) (i j : nat) : Prop :=
  ∃ ei ej, es !! i = Some ei ∧ es !! j = Some ej ∧
    rtc (link es) (index ei) (index ej).

(** Some edge listed before position [k] leads to the edge at [k]. *)
Definition reached_before (es : list (Edge Z)) (k : nat) : Prop :=
  ∃ i, (i < k)%nat ∧ visits es i k.

(** An invocation that started before position [k] has visited the edge
    at [k]. *)
Definition visited_before (es : list (Edge Z)) (log : list plot_event)
    (k : nat) : Prop :=
  ∃ i ei, (i < k)%nat ∧ es !! i = Some ei ∧ index ei ∈ calls log ∧ visits es i k.

(** A log in which every invocation is directly followed by one box, and
    every box directly follows an invocation. *)
Inductive paired : list plot_event → Prop :=
| paired_nil : paired []
| paired_snoc log n bx by_ :
    paired log → paired ((log ++ [EvFindBox n]) ++ [EvFill bx by_]).

(** What the loop keeps for a collection [es0] with unique indices and
    no flag set at the start: the marked edges are those visited from a
    position already passed; an invocation started at a position already
    passed exactly when no earlier position leads to it; every
    invocation is followed by its box. *)
Definition plot_inv_exact (es0 : list (Edge Z)) (k : nat) (es : list (Edge Z))
    (log : list plot_event) : Prop :=
  (∀ j, flagged es j ↔ ∃ i, (i < k)%nat ∧ visits es0 i j) ∧
  (∀ j e, es0 !! j = Some e →
     index e ∈ calls log ↔ (j < k)%nat ∧ ¬ reached_before es0 j) ∧
  paired log.

(** The same chain listed root first. *)
Definition two_chain_rev : list (Edge Z) := [e1; e0].

(** Two renderings without newline, enough to run the report on an
    example. *)
Definition demo_render_d (w : nat) (z : Z) : string :=
  if decide (z < 0) then "-1" else " 0".
Definition demo_render_f (w p : nat) (x : Z) : string :=
  if decide (x < 0) then "-1.00" else " 0.00".

(** ** Finished traversals *)

Section Trails.
Context {num : Type}.
Implicit Types (es : list (Edge num)) (e : Edge num) (n m : Z).

(** [trail es n l stop]: following [connectivity] from [n] visits the
    edges [l], in this order, and then stops: at the sentinel
    ([stop = None]) or at the lookup of an index [c] that no edge has
    ([stop = Some c]; [l] is empty when [n] itself is missing). *)
Inductive trail es : Z → list (nat * Edge num) → option Z → Prop :=
| trail_missing n :
    first_with_index n es = None →
    trail es n [] (Some n)
| trail_last n i e :
    first_with_index n es = Some (i, e) →
    connectivity e = -1 →
    trail es n [(i, e)] None
| trail_link n i e l stop :
    first_with_index n es = Some (i, e) →
    connectivity e ≠ -1 →
    trail es (connectivity e) l stop →
    trail es n ((i, e) :: l) stop.

(** How a traversal along a trail ends. *)
Definition trail_outcome (l : list (nat * Edge num)) (stop : option Z)
    (xs ys : list (list num)) : outcome (pyval num) :=
  match stop with
  | Some _ => Raise IndexError
  | None => Return (chain_value l xs ys)
  end.

(** The nested calls a traversal along a trail makes: one per member,
    and one more for a lookup that fails. *)
Definition trail_calls (l : list (nat * Edge num)) (stop : option Z) : nat :=
  match stop with
  | Some _ => S (length l)
  | None => length l
  end.

(** The start index leads into a connectivity cycle. *)
Definition reaches_cycle es n : Prop :=
  ∃ m, rtc (link es) n m ∧ on_cycle es m.

End Trails.

(** A collection in which two edges carry the index 0: only the first
    of them can be reached by a lookup. *)
Definition e0_again : Edge Z := mkEdge 0 70 80 0 0 0 0 0 0 (-1) 60 80 70 90 false.
Definition two_chain_dup : list (Edge Z) := [e1; e0; e0_again].

(** ** The second half of [plot_figures], lines 170-192 *)

(** Calls of the second half that the properties below follow: the
    invocations of [__find_box], the limits handed to [pl.axis] and the
    file names handed to [pl.savefig]. *)
Inductive figure_event : Type :=
| FgFindBox (n : Z)
| FgAxis (limits : list Z)
| FgSavefig (fname : string).

(** Lines 186-189: the limits [[x_min, x_max, y_min, y_max]] of the
    figure of one chain. *)
Definition axis_limits (shape : Z * Z) (xs ys : list (list Z)) : outcome (list Z) :=
  match np_min Z.leb xs, np_max Z.leb xs, np_min Z.leb ys, np_max Z.leb ys with
  | Some xlo, Some xhi, Some ylo, Some yhi =>
    let x_min := Z.max (xlo - box_margin) 0 in
    let x_max := Z.min (xhi + box_margin) shape.1 in
    let y_min := Z.max (ylo - box_margin) 0 in
    let y_max := Z.min (yhi + box_margin) shape.2 in
    Return [x_min; x_max; y_min; y_max]
  | _, _, _, _ => Raise ValueError
  end.

(** [for n, edge in enumerate(edges): edge['box_plotted'] = False],
    lines 176-178. *)
Definition reset_flags (edges : list (Edge Z)) : list (Edge Z) :=
  reset_box_plotted <$> edges.

Section Figures.

(** ['%d' % z], the interpreter's rendering of an int. *)
Variable render_int : Z → string.

(** ['%s%d.png' % (self.output_path, edge['index'])] *)
Definition figure_name (output_path : string) (idx : Z) : string :=
  output_path +:+ (render_int idx +:+ ".png").

(** The loop of lines 180-192 over the positions still to visit. *)
Fixpoint plot_singles (depth : nat) (shape : Z * Z) (output_path : string)
    (positions : list nat) (edges : list (Edge Z)) (log : list figure_event)
  : outcome unit * (list (Edge Z) * list figure_event) :=
  match positions with
  | [] => (Return tt, (edges, log))
  | i :: rest =>
    match edges !! i with
    | None => (Raise IndexError, (edges, log))
    | Some edge =>
      if box_plotted edge then plot_singles depth shape output_path rest edges log
      else
        let log1 := log ++ [FgFindBox (index edge)] in
        match __find_box depth (index edge) (Store edges [] []) with
        | (Return _, st) =>
          match axis_limits shape (st_xs st) (st_ys st) with
          | Return limits =>
            plot_singles depth shape output_path rest
              (alter set_box_plotted i (st_edges st))
              (log1 ++ [FgAxis limits;
                        FgSavefig (figure_name output_path (index edge))])
          | Raise e => (Raise e, (st_edges st, log1))
          | Overrun => (Overrun, (st_edges st, log1))
          end
        | (Raise e, st) => (Raise e, (st_edges st, log1))
        | (Overrun, st) => (Overrun, (st_edges st, log1))
        end
    end
  end.

(** [plot_figures] from the box loop on (lines 151-192): the boxes of
    [all.png]; the axes of the whole image,
    [pl.axis([0, self.image.shape[0], 0, self.image.shape[1]])], and the
    file [all.png] (lines 172-173); the reset of the flags; and one
    figure per invocation.  The result holds the edges and the two
    logs. *)
Definition plot_figures_streaks (depth : nat) (shape : Z * Z)
    (output_path : string) (edges : list (Edge Z))
  : outcome unit * (list (Edge Z) * list plot_event * list figure_event) :=
  match plot_figures_boxes depth shape edges with
  | (Return _, (edges1, log1)) =>
    let flog := [FgAxis [0; shape.1; 0; shape.2];
                 FgSavefig (output_path +:+ "all.png")] in
    let edges2 := reset_flags edges1 in
    match plot_singles depth shape output_path
            (seq 0 (length edges2)) edges2 flog with
    | (r, (edges3, flog')) => (r, (edges3, log1, flog'))
    end
  | (Raise e, (edges1, log1)) => (Raise e, (edges1, log1, []))
  | (Overrun, (edges1, log1)) => (Overrun, (edges1, log1, []))
  end.

End Figures.

(** The start indices, the axis limits and the file names of a log. *)
Definition figure_calls (log : list figure_event) : list Z :=
  omap (λ ev, match ev with FgFindBox n => Some n | _ => None end) log.
Definition figure_axes (log : list figure_event) : list (list Z) :=
  omap (λ ev, match ev with FgAxis a => Some a | _ => None end) log.
Definition figure_files (log : list figure_event) : list string :=
  omap (λ ev, match ev with FgSavefig f => Some f | _ => None end) log.

(** The limits [[x_min, x_max, y_min, y_max]] of a box given by its
    corners as [pl.fill] receives them. *)
Definition box_limits (b : list Z * list Z) : list Z :=
  match b with
  | ([x0; _; x1; _], [y0; y1; _; _]) => [x0; x1; y0; y1]
  | _ => []
  end.

(** ** Characters of a path *)


(** ** The first half of [plot_figures], lines 135-149 *)

Section Display.
Context {num : Type}.

(** The comparison [a < b] of two floats; [a > b] is [b < a].  Both are
    False when one of the two is NaN. *)
Variable num_lt : num → num → bool.

(** Lines 136-141 for one pixel [v] of [self.image], with
    [hi = med + cut_threshold * std] and [lo = med - cut_threshold * std]:
    [plot_data] is a copy; where [image > hi] it is set to [hi], then
    where [image < lo] it is set to [lo].  Both tests read [self.image],
    and a pixel for which neither holds keeps its value.  ([self.image]
    is a float64 array, line 27, so the bound is stored as it is.) *)
Definition cut_pixel (lo hi v : num) : num :=
  let v1 := if num_lt hi v then hi else v in
  if num_lt v lo then lo else v1.

(** [plot_data] for an image given by its rows. *)
Definition cut_image (lo hi : num) (image : list (list num)) : list (list num) :=
  (λ row : list num, cut_pixel lo hi <$> row) <$> image.

(** The keys of an edge dict that the contour loop reads. *)
Record contour_edge : Type := mkContourEdge {
  ce_index : Z;
  ce_x : list num;
  ce_y : list num
}.

(** [pl.plot(x, y)] and [pl.text(x, y, '%d' % index, ...)]. *)
Inductive contour_event : Type :=
| CvPlot (x y : list num)
| CvText (x y : num) (label : Z).

(** The loop of lines 146-149: each contour is drawn and labelled at
    [(edge['x'][0], edge['y'][1])].  [pl.plot(x, y)] raises ValueError,
    and draws nothing, when [x] and [y] differ in length; the two
    subscripts raise IndexError on a sequence that is too short. *)
Fixpoint plot_contours (edges : list contour_edge) (log : list contour_event)
  : outcome unit * list contour_event :=
  match edges with
  | [] => (Return tt, log)
  | edge :: rest =>
    if decide (length (ce_x edge) = length (ce_y edge)) then
      let log1 := log ++ [CvPlot (ce_x edge) (ce_y edge)] in
      match ce_x edge !! 0%nat with
      | None => (Raise IndexError, log1)
      | Some x0 =>
        match ce_y edge !! 1%nat with
        | None => (Raise IndexError, log1)
        | Some y1 => plot_contours rest (log1 ++ [CvText x0 y1 (ce_index edge)])
        end
      end
    else (Raise ValueError, log)
  end.

(** A contour the loop can draw: as many [x] as [y] coordinates. *)
Definition drawable (edge : contour_edge) : Prop :=
  length (ce_x edge) = length (ce_y edge).

(** A contour the loop can draw and label: at least two points. *)
Definition labelable (edge : contour_edge) : Prop :=
  drawable edge ∧ (2 ≤ length (ce_y edge))%nat.

(** What the loop draws for a contour it can label. *)
Definition contour_drawing (edge : contour_edge) : list contour_event :=
  CvPlot (ce_x edge) (ce_y edge) ::
  match ce_x edge !! 0%nat, ce_y edge !! 1%nat with
  | Some x0, Some y1 => [CvText x0 y1 (ce_index edge)]
  | _, _ => []
  end.

End Display.

(** * Properties *)

(** ** Edges up to their flags *)

Section FlagLemmas.
Context {num : Type}.
Implicit Types (es : list (Edge num)) (e : Edge num) (n m : Z).

Lemma reset_set e : reset_box_plotted (set_box_plotted e) = reset_box_plotted e.
Proof. reflexivity. Qed.

Lemma reset_eq_fields e e' :
  reset_box_plotted e = reset_box_plotted e' →
  index e = index e' ∧ connectivity e = connectivity e' ∧
  x_min e = x_min e' ∧ x_max e = x_max e' ∧ y_min e = y_min e' ∧ y_max e = y_max e'.
Proof.
  intros H.
  repeat split;
    [ change (index (reset_box_plotted e) = index (reset_box_plotted e'))
    | change (connectivity (reset_box_plotted e) = connectivity (reset_box_plotted e'))
    | change (x_min (reset_box_plotted e) = x_min (reset_box_plotted e'))
    | change (x_max (reset_box_plotted e) = x_max (reset_box_plotted e'))
    | change (y_min (reset_box_plotted e) = y_min (reset_box_plotted e'))
    | change (y_max (reset_box_plotted e) = y_max (reset_box_plotted e')) ];
    by rewrite H.
Qed.

Lemma same_links_refl es : same_links es es.
Proof. reflexivity. Qed.

Lemma same_links_trans es1 es2 es3 :
  same_links es1 es2 → same_links es2 es3 → same_links es1 es3.
Proof. unfold same_links. congruence. Qed.

Lemma same_links_length es es' : same_links es es' → length es = length es'.
Proof.
  intros H. rewrite <- (length_fmap reset_box_plotted es), H.
  apply length_fmap.
Qed.

Lemma same_links_lookup es es' i e :
  same_links es es' → es !! i = Some e →
  ∃ e', es' !! i = Some e' ∧ reset_box_plotted e' = reset_box_plotted e.
Proof.
  intros H Hi.
  assert (Hl : (reset_box_plotted <$> es') !! i = Some (reset_box_plotted e)).
  { rewrite <- H, list_lookup_fmap, Hi. reflexivity. }
  rewrite list_lookup_fmap in Hl.
  destruct (es' !! i) as [e'|]; [|done].
  apply (inj Some) in Hl. eauto.
Qed.

Lemma same_links_alter es i : same_links es (alter set_box_plotted i es).
Proof.
  unfold same_links. apply list_eq. intros j.
  rewrite !list_lookup_fmap.
  destruct (decide (i = j)) as [->|Hne].
  - rewrite list_lookup_alter_eq. by destruct (es !! j).
  - by rewrite list_lookup_alter_ne.
Qed.

Lemma insert_as_alter es i e :
  es !! i = Some e →
  <[i := set_box_plotted e]> es = alter set_box_plotted i es.
Proof.
  intros Hi. apply list_eq. intros j.
  destruct (decide (i = j)) as [->|Hne].
  - rewrite list_lookup_alter_eq, Hi.
    apply list_lookup_insert_eq. by eapply lookup_lt_Some.
  - by rewrite list_lookup_insert_ne, list_lookup_alter_ne.
Qed.

Lemma first_with_index_fmap_reset n es :
  first_with_index n (reset_box_plotted <$> es)
  = prod_map id reset_box_plotted <$> first_with_index n es.
Proof.
  unfold first_with_index. rewrite list_find_fmap.
  f_equal.
Qed.

Lemma first_with_index_same_links n es es' i e :
  same_links es es' → first_with_index n es = Some (i, e) →
  ∃ e', first_with_index n es' = Some (i, e') ∧
        reset_box_plotted e' = reset_box_plotted e.
Proof.
  intros H Hf.
  pose proof (first_with_index_fmap_reset n es') as H'.
  rewrite <- H, first_with_index_fmap_reset, Hf in H'.
  destruct (first_with_index n es') as [[i' e']|]; [|done].
  apply (inj Some) in H'. cbn in H'.
  apply pair_equal_spec in H' as [-> H']. eauto.
Qed.

Lemma first_with_index_same_links_None n es es' :
  same_links es es' → first_with_index n es = None → first_with_index n es' = None.
Proof.
  intros H Hf.
  pose proof (first_with_index_fmap_reset n es') as H'.
  rewrite <- H, first_with_index_fmap_reset, Hf in H'.
  by destruct (first_with_index n es').
Qed.

Lemma first_with_index_lookup n es i e :
  first_with_index n es = Some (i, e) → es !! i = Some e ∧ index e = n.
Proof. intros H. apply list_find_Some in H as (Hi & Hn & _). done. Qed.

Lemma first_with_index_head n es :
  head (with_index n es) = snd <$> first_with_index n es.
Proof.
  unfold with_index, first_with_index.
  induction es as [|e es IH]; [done|].
  rewrite filter_cons. simpl. destruct (decide (index e = n)); [done|].
  rewrite IH. by destruct (list_find _ es) as [[??]|].
Qed.

End FlagLemmas.

(** ** Following links *)

Section ChainLemmas.
Context {num : Type}.
Implicit Types (es : list (Edge num)) (e : Edge num) (n m : Z).
Implicit Types (l : list (nat * Edge num)).

Lemma link_det es a b b' : link es a b → link es a b' → b = b'.
Proof. intros (i & e & Hf & <- & _) (i' & e' & Hf' & <- & _). congruence. Qed.

Lemma link_same_links es es' a b : same_links es es' → link es a b → link es' a b.
Proof.
  intros Hs (i & e & Hf & Hc & Hb).
  destruct (first_with_index_same_links _ _ _ _ _ Hs Hf) as (e' & Hf' & He).
  exists i, e'. split; [done|]. split; [|done].
  apply reset_eq_fields in He as (_ & He & _). congruence.
Qed.

Lemma chain_nonempty es n l : chain es n l → l ≠ [].
Proof. by destruct 1. Qed.

Lemma chain_det es n l l' : chain es n l → chain es n l' → l = l'.
Proof.
  intros H. revert l'. induction H as [n i e Hf Hc|n i e l Hf Hc Hl IH];
    intros l' H'; inversion H' as [? i' e' Hf' Hc'|? i' e' l'' Hf' Hc' Hl'];
    simplify_eq; try done.
  f_equal. by apply IH.
Qed.

(** A chain exists exactly when the sentinel is reached. *)
Lemma reaches_sentinel_chain es n : reaches_sentinel es n → ∃ l, chain es n l.
Proof.
  intros (m & Hr & i & e & Hf & Hc).
  induction Hr as [n|n y m Hl Hr IH].
  - exists [(i, e)]. by constructor.
  - destruct (IH Hf) as [l Hch].
    destruct Hl as (j & e' & Hf' & <- & Hne).
    exists ((j, e') :: l). by constructor.
Qed.

Lemma chain_reaches_sentinel es n l : chain es n l → reaches_sentinel es n.
Proof.
  induction 1 as [n i e Hf Hc|n i e l Hf Hc Hl (m & Hr & Hs)].
  - exists n. split; [done|]. by exists i, e.
  - exists m. split; [|done].
    eapply rtc_l; [|done]. by exists i, e.
Qed.

(** The members of a chain are the edges reachable from its start. *)
Lemma chain_reachable es n l :
  chain es n l → ∀ p, p ∈ l ↔ reachable_edge es n p.
Proof.
  induction 1 as [n i e Hf Hc|n i e l Hf Hc Hl IH]; intros p.
  - rewrite list_elem_of_singleton. split.
    + intros ->. by exists n.
    + intros (m & Hr & Hp). destruct Hr as [|n y m Hlk Hr]; [congruence|].
      destruct Hlk as (j & e' & Hf' & Hy & Hne). congruence.
  - rewrite elem_of_cons, IH. split.
    + intros [->|(m & Hr & Hp)]; [by exists n|].
      exists m. split; [|done]. eapply rtc_l; [|done]. by exists i, e.
    + intros (m & Hr & Hp). destruct Hr as [|n y m Hlk Hr]; [left; congruence|].
      right. exists m. split; [|done].
      assert (link es n (connectivity e)) as Hlk' by (by exists i, e).
      by rewrite (link_det _ _ _ _ Hlk' Hlk).
Qed.

(** Every member of a chain sits in the collection at its position, and
    every member but the first is the target of a link. *)
Lemma chain_lookup es n l :
  chain es n l → Forall (λ p, es !! p.1 = Some p.2) l.
Proof.
  induction 1 as [n i e Hf Hc|n i e l Hf Hc Hl IH];
    apply first_with_index_lookup in Hf as [Hf _]; by repeat constructor.
Qed.

Lemma chain_head es n l :
  chain es n l → ∃ i e l', l = (i, e) :: l' ∧ first_with_index n es = Some (i, e).
Proof. destruct 1; eauto. Qed.

Lemma chain_tail_targets es n l :
  chain es n l → Forall (λ p, is_target es (index p.2)) (tail l).
Proof.
  induction 1 as [n i e Hf Hc|n i e l Hf Hc Hl IH]; [constructor|].
  simpl. destruct (chain_head _ _ _ Hl) as (j & e' & l' & -> & Hf').
  constructor; [|done]. simpl.
  apply first_with_index_lookup in Hf as [Hf _].
  apply first_with_index_lookup in Hf' as [_ Hf'].
  exists e. split; [by eapply list_elem_of_lookup_2|]. split; [done|congruence].
Qed.

End ChainLemmas.

(** ** The traversal *)

Section FindBox.
Context {num : Type}.
Implicit Types (es : list (Edge num)) (e : Edge num) (n m : Z).
Implicit Types (l : list (nat * Edge num)) (xs ys : list (list num)).


Lemma find_box_unfold depth n es xs ys i e :
  first_with_index n es = Some (i, e) →
  __find_box (S depth) n (Store es xs ys) =
    let st1 := Store (alter set_box_plotted i es)
                     (xs ++ [[x_min e; x_max e]]) (ys ++ [[y_min e; y_max e]]) in
    if decide (connectivity e ≠ -1) then
      match __find_box depth (connectivity e) st1 with
      | (Return _, st2) => (Return PyNone, st2)
      | (Raise err, st2) => (Raise err, st2)
      | (Overrun, st2) => (Overrun, st2)
      end
    else (Return (PyTuple (st_xs st1) (st_ys st1)), st1).
Proof.
  intros Hf. simpl. rewrite Hf.
  apply first_with_index_lookup in Hf as [Hf _].
  by rewrite (insert_as_alter _ _ _ Hf).
Qed.

Lemma find_box_missing depth n es xs ys :
  first_with_index n es = None →
  __find_box (S depth) n (Store es xs ys) = (Raise IndexError, Store es xs ys).
Proof. intros Hf. simpl. by rewrite Hf. Qed.

(** Along a chain the traversal returns, having appended the pair of
    every member and marked every member. *)
Lemma find_box_chain es n l :
  chain es n l →
  ∀ depth es' xs ys,
    same_links es es' → (length l ≤ depth)%nat →
    __find_box depth n (Store es' xs ys)
    = (Return (chain_value l xs ys),
       Store (mark_all l.*1 es') (xs ++ (xbox <$> l)) (ys ++ (ybox <$> l))).
Proof.
  induction 1 as [n i e Hf Hc|n i e l Hf Hc Hl IH];
    intros depth es' xs ys Hs Hd;
    (destruct depth as [|depth]; [simpl in Hd; lia|]);
    destruct (first_with_index_same_links _ _ _ _ _ Hs Hf) as (e' & Hf' & He);
    apply reset_eq_fields in He as (_ & Hc' & Hx1 & Hx2 & Hy1 & Hy2);
    rewrite (find_box_unfold _ _ _ _ _ _ _ Hf'); cbv zeta;
    rewrite Hc', Hx1, Hx2, Hy1, Hy2.
  - rewrite decide_False by (intros ?; congruence). reflexivity.
  - rewrite decide_True by done.
    rewrite (IH depth); [| |simpl in Hd; lia].
    + rewrite <- !(assoc_L (++)). simpl.
      destruct l; [by apply chain_nonempty in Hl|done].
    + eapply same_links_trans; [done|]. apply same_links_alter.
Qed.

(** Reaching a dangling link ends in the IndexError of the lookup. *)
Lemma find_box_dangling es n m c :
  rtc (link es) n m → link es m c → first_with_index c es = None →
  ∀ es' xs ys, same_links es es' →
    ∃ depth st', __find_box depth n (Store es' xs ys) = (Raise IndexError, st').
Proof.
  intros Hr Hl Hc. induction Hr as [n|n y m Hny Hr IH]; intros es' xs ys Hs.
  - destruct Hl as (i & e & Hf & <- & Hne).
    destruct (first_with_index_same_links _ _ _ _ _ Hs Hf) as (e' & Hf' & He).
    apply reset_eq_fields in He as (_ & Hc' & _).
    exists 2%nat. eexists.
    rewrite (find_box_unfold _ _ _ _ _ _ _ Hf'); cbv zeta.
    rewrite decide_True by congruence.
    rewrite find_box_missing; [done|].
    rewrite Hc'. eapply first_with_index_same_links_None; [|done].
    eapply same_links_trans; [done|]. apply same_links_alter.
  - destruct Hny as (i & e & Hf & <- & Hne).
    destruct (first_with_index_same_links _ _ _ _ _ Hs Hf) as (e' & Hf' & He).
    apply reset_eq_fields in He as (_ & Hc' & _).
    edestruct (IH Hl (alter set_box_plotted i es')) as (depth & st' & Hrun).
    { eapply same_links_trans; [done|]. apply same_links_alter. }
    exists (S depth), st'.
    rewrite (find_box_unfold _ _ _ _ _ _ _ Hf'); cbv zeta.
    rewrite decide_True by congruence.
    rewrite Hc', Hrun. done.
Qed.

(** On a cycle every node has a successor on the cycle. *)
Lemma on_cycle_next es n m :
  on_cycle es n → rtc (link es) m n → ∃ c, link es m c ∧ rtc (link es) c n.
Proof.
  intros Hcyc Hr. inversion Hr as [|? y ? Hl Hr']; subst; [|eauto].
  inversion Hcyc as [? y Hl|? y ? Hl Ht]; subst.
  - exists n. split; [done|]. apply rtc_refl.
  - exists y. split; [done|]. by apply tc_rtc.
Qed.

(** Inside a cycle the traversal exhausts every depth, one appended pair
    per nested call. *)
Lemma find_box_cycle es n :
  on_cycle es n →
  ∀ depth m es' xs ys,
    rtc (link es) m n → same_links es es' →
    ∃ st', __find_box depth m (Store es' xs ys) = (Overrun, st') ∧
           length (st_xs st') = (length xs + depth)%nat ∧
           length (st_ys st') = (length ys + depth)%nat.
Proof.
  intros Hcyc. induction depth as [|depth IH]; intros m es' xs ys Hr Hs.
  - eexists. split; [reflexivity|]. simpl. lia.
  - destruct (on_cycle_next _ _ _ Hcyc Hr) as (c & (i & e & Hf & <- & Hne) & Hr').
    destruct (first_with_index_same_links _ _ _ _ _ Hs Hf) as (e' & Hf' & He).
    apply reset_eq_fields in He as (_ & Hc' & _).
    rewrite (find_box_unfold _ _ _ _ _ _ _ Hf'); cbv zeta.
    rewrite decide_True by congruence. rewrite Hc'.
    edestruct (IH (connectivity e) (alter set_box_plotted i es')) as (st' & -> & Hx & Hy);
      [done| |].
    { eapply same_links_trans; [done|]. apply same_links_alter. }
    exists st'. split; [done|]. rewrite Hx, Hy, !length_app. simpl. lia.
Qed.

End FindBox.

(** ** What the traversal leaves on the edges *)

Section Frame.
Context {num : Type}.
Implicit Types (es : list (Edge num)) (e : Edge num) (n m : Z).

Lemma same_or_marked_refl e : same_or_marked e e.
Proof. by left. Qed.

Lemma same_or_marked_trans e1 e2 e3 :
  same_or_marked e1 e2 → same_or_marked e2 e3 → same_or_marked e1 e3.
Proof. intros [->| ->] [->| ->]; unfold same_or_marked; auto. Qed.

Lemma marked_alter es i : Forall2 same_or_marked es (alter set_box_plotted i es).
Proof.
  apply Forall2_alter_r.
  - apply Forall2_same_length_lookup. split; [done|].
    intros j x y Hx Hy. rewrite Hx in Hy. injection Hy as ->. by left.
  - intros x y Hx Hy Hxy. rewrite Hx in Hy. injection Hy as ->. by right.
Qed.

Lemma marked_trans es1 es2 es3 :
  Forall2 same_or_marked es1 es2 → Forall2 same_or_marked es2 es3 →
  Forall2 same_or_marked es1 es3.
Proof. apply Forall2_trans, same_or_marked_trans. Qed.

Lemma marked_refl es : Forall2 same_or_marked es es.
Proof.
  apply Forall2_same_length_lookup. split; [done|].
  intros j x y Hx Hy. rewrite Hx in Hy. injection Hy as ->. by left.
Qed.

(** Whatever the outcome, every edge is left as it was or with its
    [box_plotted] flag set. *)
Lemma find_box_marks depth n (st : store num) :
  Forall2 same_or_marked (st_edges st) (st_edges (__find_box depth n st).2).
Proof.
  revert n st. induction depth as [|depth IH]; intros n [es xs ys].
  - apply marked_refl.
  - destruct (first_with_index n es) as [[i e]|] eqn:Hf.
    + rewrite (find_box_unfold _ _ _ _ _ _ _ Hf); cbv zeta.
      destruct (decide (connectivity e ≠ -1)); [|apply marked_alter].
      match goal with |- context [__find_box depth ?c ?s] =>
        specialize (IH c s); destruct (__find_box depth c s) as [[v|err|] st2] end;
        simpl in *; (eapply marked_trans; [apply marked_alter|done]).
    + rewrite find_box_missing by done. apply marked_refl.
Qed.

Lemma marked_same_links es es' :
  Forall2 same_or_marked es es' → same_links es es'.
Proof.
  unfold same_links. induction 1 as [|e e' es es' He _ IH]; [done|].
  rewrite !fmap_cons. f_equal; [|done]. by destruct He as [->| ->].
Qed.

Lemma marked_lookup_set es es' i e :
  Forall2 same_or_marked es es' → es !! i = Some (set_box_plotted e) →
  es' !! i = Some (set_box_plotted e).
Proof.
  intros H Hi. destruct (Forall2_lookup_l _ _ _ _ _ H Hi) as (e' & He' & [->| ->]);
    done.
Qed.

End Frame.

(** ** Minimum and maximum of the collected pairs *)

Section Bounds.
Context {num : Type} (num_le : num → num → bool).
Hypothesis ord : total_order num_le.


Lemma minimum_below a b :
  num_le (minimum num_le a b) a = true ∧ num_le (minimum num_le a b) b = true.
Proof.
  unfold minimum. destruct (num_le a b) eqn:Hab.
  - split; [apply ord|done].
  - split; [|apply ord]. destruct (ord_total _ ord a b); congruence.
Qed.

Lemma maximum_above a b :
  num_le a (maximum num_le a b) = true ∧ num_le b (maximum num_le a b) = true.
Proof.
  unfold maximum. destruct (num_le a b) eqn:Hab.
  - split; [done|apply ord].
  - split; [apply ord|]. destruct (ord_total _ ord a b); congruence.
Qed.

Lemma foldl_minimum_least a rest :
  least_in num_le (foldl (minimum num_le) a rest) (a :: rest).
Proof.
  revert a. induction rest as [|b rest IH]; intros a; simpl.
  - split; [exists a; split; [left|apply ord]|].
    intros x ->%list_elem_of_singleton. apply ord.
  - destruct (IH (minimum num_le a b)) as [(x & Hx & Hle) Hlow].
    destruct (minimum_below a b) as [Ha Hb]. split.
    + apply elem_of_cons in Hx as [->|Hx].
      * unfold minimum in Hle |- *. destruct (num_le a b).
        -- exists a. split; [left|done].
        -- exists b. split; [right; left|done].
      * exists x. split; [by do 2 right|done].
    + assert (Hm : num_le (foldl (minimum num_le) (minimum num_le a b) rest)
                          (minimum num_le a b) = true) by (apply Hlow; left).
      intros y [->|[->|Hy]%elem_of_cons]%elem_of_cons.
      * by eapply ord_trans.
      * by eapply ord_trans.
      * apply Hlow. by right.
Qed.

Lemma foldl_maximum_greatest a rest :
  greatest_in num_le (foldl (maximum num_le) a rest) (a :: rest).
Proof.
  revert a. induction rest as [|b rest IH]; intros a; simpl.
  - split; [exists a; split; [left|apply ord]|].
    intros x ->%list_elem_of_singleton. apply ord.
  - destruct (IH (maximum num_le a b)) as [(x & Hx & Hle) Hup].
    destruct (maximum_above a b) as [Ha Hb]. split.
    + apply elem_of_cons in Hx as [->|Hx].
      * unfold maximum in Hle |- *. destruct (num_le a b).
        -- exists b. split; [right; left|done].
        -- exists a. split; [left|done].
      * exists x. split; [by do 2 right|done].
    + assert (Hm : num_le (maximum num_le a b)
                          (foldl (maximum num_le) (maximum num_le a b) rest) = true)
        by (apply Hup; left).
      intros y [->|[->|Hy]%elem_of_cons]%elem_of_cons.
      * by eapply ord_trans.
      * by eapply ord_trans.
      * apply Hup. by right.
Qed.

Lemma np_min_least xs m : np_min num_le xs = Some m → least_in num_le m (concat xs).
Proof.
  unfold np_min. destruct (concat xs) as [|a rest]; [done|].
  intros [= <-]. apply foldl_minimum_least.
Qed.

Lemma np_max_greatest xs m : np_max num_le xs = Some m → greatest_in num_le m (concat xs).
Proof.
  unfold np_max. destruct (concat xs) as [|a rest]; [done|].
  intros [= <-]. apply foldl_maximum_greatest.
Qed.

Lemma np_min_is_Some xs : concat xs ≠ [] → is_Some (np_min num_le xs).
Proof. unfold np_min. destruct (concat xs); [done|eauto]. Qed.

Lemma np_max_is_Some xs : concat xs ≠ [] → is_Some (np_max num_le xs).
Proof. unfold np_max. destruct (concat xs); [done|eauto]. Qed.

(** The entries of a list of pairs [[lo, hi]]. *)
Lemma elem_of_concat_pairs {A : Type} (lo hi : A → num) (l : list A) a :
  a ∈ concat ((λ p, [lo p; hi p]) <$> l) ↔ ∃ p, p ∈ l ∧ (a = lo p ∨ a = hi p).
Proof.
  induction l as [|p l IH]; simpl.
  - split; [by intros ?%elem_of_nil|by intros (? & ?%elem_of_nil & _)].
  - rewrite !elem_of_cons, IH. split.
    + intros [->|[->|(q & Hq & Ha)]].
      * exists p. split; [left|]; auto.
      * exists p. split; [left|]; auto.
      * exists q. split; [by right|done].
    + intros (q & [->|Hq]%elem_of_cons & Ha); [tauto|].
      do 2 right. eauto.
Qed.

(** For well-formed boxes ([lo <= hi]) the minimum over all collected
    entries is the least lower end and the maximum the greatest upper
    end: the bounds of the union of the intervals. *)
Lemma np_min_pairs {A : Type} (lo hi : A → num) (l : list A) m :
  (∀ p, p ∈ l → num_le (lo p) (hi p) = true) →
  np_min num_le ((λ p, [lo p; hi p]) <$> l) = Some m →
  least_in num_le m (lo <$> l).
Proof.
  intros Hwf [(a & Ha & Hle) Hlow]%np_min_least. split.
  - apply elem_of_concat_pairs in Ha as (p & Hp & [->| ->]).
    + exists (lo p). split; [by apply list_elem_of_fmap_2|done].
    + exists (lo p). split; [by apply list_elem_of_fmap_2|].
      eapply ord_trans; [done|by apply Hwf|done].
  - intros a' (p & -> & Hp)%list_elem_of_fmap. apply Hlow.
    apply elem_of_concat_pairs. eauto.
Qed.

Lemma np_max_pairs {A : Type} (lo hi : A → num) (l : list A) m :
  (∀ p, p ∈ l → num_le (lo p) (hi p) = true) →
  np_max num_le ((λ p, [lo p; hi p]) <$> l) = Some m →
  greatest_in num_le m (hi <$> l).
Proof.
  intros Hwf [(a & Ha & Hle) Hup]%np_max_greatest. split.
  - apply elem_of_concat_pairs in Ha as (p & Hp & [->| ->]).
    + exists (hi p). split; [by apply list_elem_of_fmap_2|].
      eapply ord_trans; [done|done|by apply Hwf].
    + exists (hi p). split; [by apply list_elem_of_fmap_2|done].
  - intros a' (p & -> & Hp)%list_elem_of_fmap. apply Hup.
    apply elem_of_concat_pairs. eauto.
Qed.

End Bounds.

(** ** Depth *)

Section Depth.
Context {num : Type}.
Implicit Types (es : list (Edge num)) (e : Edge num) (n m : Z).

(** A run that returned or raised is not changed by a larger depth. *)
Lemma find_box_deeper depth n (st : store num) r st' :
  __find_box depth n st = (r, st') → r ≠ Overrun →
  ∀ depth', (depth ≤ depth')%nat → __find_box depth' n st = (r, st').
Proof.
  revert n st r st'. induction depth as [|depth IH]; intros n [es xs ys] r st' Hrun Hr.
  - simpl in Hrun. congruence.
  - intros [|depth'] Hd; [lia|].
    destruct (first_with_index n es) as [[i e]|] eqn:Hf.
    + rewrite (find_box_unfold _ _ _ _ _ _ _ Hf) in Hrun.
      rewrite (find_box_unfold _ _ _ _ _ _ _ Hf). cbv zeta in *.
      destruct (decide (connectivity e ≠ -1)); [|done].
      match type of Hrun with context [__find_box depth ?c ?s] =>
        destruct (__find_box depth c s) as [r2 st2] eqn:Hin;
        assert (r2 ≠ Overrun) as Hr2 by (intros ->; simplify_eq);
        rewrite (IH c s r2 st2 Hin Hr2 depth') by lia end.
      done.
    + rewrite find_box_missing in Hrun by done.
      by rewrite find_box_missing.
Qed.

(** A run that returns has followed a chain no longer than its depth. *)
Lemma find_box_returns_chain depth n es xs ys v st' :
  __find_box depth n (Store es xs ys) = (Return v, st') →
  ∃ l, chain es n l ∧ (length l ≤ depth)%nat.
Proof.
  revert n es xs ys v st'.
  induction depth as [|depth IH]; intros n es xs ys v st' Hrun; [done|].
  destruct (first_with_index n es) as [[i e]|] eqn:Hf.
  - rewrite (find_box_unfold _ _ _ _ _ _ _ Hf) in Hrun; cbv zeta in *.
    destruct (decide (connectivity e ≠ -1)) as [Hc|Hc].
    + match type of Hrun with context [__find_box depth ?c ?s] =>
        destruct (__find_box depth c s) as [[v2|err|] st2] eqn:Hin end;
        [|done|done].
      apply IH in Hin as (l & Hl & Hlen).
      pose proof (same_links_alter es i) as Hs.
      assert (∃ l', chain es (connectivity e) l' ∧ length l' = length l)
        as (l' & Hl' & Hlen').
      { clear -Hl Hs. induction Hl as [k j e' Hf' Hc'|k j e' l Hf' Hc' Hl IHl].
        - symmetry in Hs.
          destruct (first_with_index_same_links _ _ _ _ _ Hs Hf') as (e2 & Hf2 & He).
          apply reset_eq_fields in He as (_ & He & _).
          exists [(j, e2)]. split; [|done]. constructor; [done|congruence].
        - symmetry in Hs.
          destruct (first_with_index_same_links _ _ _ _ _ Hs Hf') as (e2 & Hf2 & He).
          apply reset_eq_fields in He as (_ & He & _).
          destruct IHl as (l' & Hl' & Hlen).
          exists ((j, e2) :: l'). split; [|simpl; congruence].
          constructor; [done|congruence|]. by rewrite He. }
      exists ((i, e) :: l'). split; [by constructor|]. simpl. lia.
    + exists [(i, e)]. split; [|simpl; lia].
      constructor; [done|]. by destruct (decide (connectivity e = -1)).
  - by rewrite find_box_missing in Hrun.
Qed.

(** From higher to lower indices every chain ends: the edges whose index
    is at most [n] bound the length of the chain from [n]. *)
Lemma filter_length_le {A : Type} (P Q : A → Prop)
    `{∀ x, Decision (P x)} `{∀ x, Decision (Q x)} (l : list A) :
  (∀ x, P x → Q x) → (length (filter P l) ≤ length (filter Q l))%nat.
Proof.
  intros HPQ. induction l as [|x l IH]; [done|].
  rewrite !filter_cons.
  destruct (decide (P x)), (decide (Q x)); simpl; try lia. naive_solver.
Qed.

Lemma filter_length_lt {A : Type} (P Q : A → Prop)
    `{∀ x, Decision (P x)} `{∀ x, Decision (Q x)} (l : list A) x :
  (∀ x, P x → Q x) → x ∈ l → Q x → ¬ P x →
  (length (filter P l) < length (filter Q l))%nat.
Proof.
  intros HPQ Hx HQ HP. induction l as [|y l IH]; [by apply elem_of_nil in Hx|].
  rewrite !filter_cons. apply elem_of_cons in Hx as [<-|Hx].
  - rewrite decide_False, decide_True by done. simpl.
    pose proof (filter_length_le P Q l HPQ). lia.
  - specialize (IH Hx).
    destruct (decide (P y)), (decide (Q y)); simpl; try lia. naive_solver.
Qed.

Lemma linker_invariant_chain es :
  linker_invariant es →
  ∀ k n, (length (up_to n es) ≤ k)%nat →
    (∃ e, e ∈ es ∧ index e = n) →
    ∃ l, chain es n l ∧ (length l ≤ length (up_to n es))%nat.
Proof.
  intros Hinv. induction k as [|k IH]; intros n Hk (e0 & He0 & Hn).
  - assert (e0 ∈ up_to n es) as Hin
      by (apply list_elem_of_filter; split; [lia|done]).
    destruct (up_to n es); [by apply elem_of_nil in Hin|simpl in Hk; lia].
  - destruct (list_find_elem_of (λ e, index e = n) es e0 He0 Hn) as [[i e] Hf].
    change (first_with_index n es = Some (i, e)) in Hf.
    destruct (first_with_index_lookup _ _ _ _ Hf) as [Hi Hidx].
    assert (e ∈ es) as He by (by eapply list_elem_of_lookup_2).
    assert (e ∈ up_to n es) as Hin
      by (apply list_elem_of_filter; split; [lia|done]).
    destruct (decide (connectivity e = -1)) as [Hc|Hc].
    + exists [(i, e)]. split; [by constructor|].
      destruct (up_to n es); [by apply elem_of_nil in Hin|simpl; lia].
    + destruct (Hinv e He) as [?|(Hlt & e' & He' & Hidx')]; [done|].
      assert (length (up_to (connectivity e) es) < length (up_to n es))%nat as Hdec.
      { apply (filter_length_lt _ _ _ e); simpl; [lia|done|lia|lia]. }
      destruct (IH (connectivity e)) as (l & Hl & Hlen); [lia|eauto|].
      exists ((i, e) :: l). split; [|simpl; lia].
      by constructor.
Qed.

Lemma linker_invariant_acyclic es : linker_invariant es → acyclic_within es.
Proof.
  intros Hinv e He.
  destruct (linker_invariant_chain es Hinv _ (index e) (le_n _)) as (l & Hl & Hlen);
    [eauto|].
  exists l. split; [done|].
  etrans; [done|]. apply length_filter.
Qed.

End Depth.

(** ** The example collections *)

Lemma Z_leb_total_order : total_order Z.leb.
Proof.
  split.
  - intros a. apply Z.leb_refl.
  - intros a b c ?%Z.leb_le ?%Z.leb_le. apply Z.leb_le. lia.
  - intros a b. destruct (Z.le_ge_cases a b); [left|right]; by apply Z.leb_le.
Qed.

Ltac solve_chain :=
  repeat first
    [ eapply chain_last; [reflexivity|reflexivity]
    | eapply chain_link; [reflexivity|done|] ].

Lemma two_chain_chain : chain two_chain 1 [(1%nat, e1); (0%nat, e0)].
Proof. solve_chain. Qed.

Lemma two_chain_reaches_sentinel : reaches_sentinel two_chain 1.
Proof. eapply chain_reaches_sentinel, two_chain_chain. Qed.

Lemma two_chain_linker_invariant : linker_invariant two_chain.
Proof.
  intros e [->|[->|[]%elem_of_nil]%elem_of_cons]%elem_of_cons.
  - by left.
  - right. split; [done|]. exists e0. split; [left|done].
Qed.

Lemma two_chain_acyclic : acyclic_within two_chain.
Proof. apply linker_invariant_acyclic, two_chain_linker_invariant. Qed.

Lemma two_cycle_link_0_1 : link two_cycle 0 1.
Proof. by exists 0%nat, c0. Qed.

Lemma two_cycle_link_1_0 : link two_cycle 1 0.
Proof. by exists 1%nat, c1. Qed.

Lemma two_cycle_on_cycle : on_cycle two_cycle 0.
Proof.
  eapply tc_l; [apply two_cycle_link_0_1|]. apply tc_once, two_cycle_link_1_0.
Qed.

Lemma one_dangling_reaches : reaches_dangling one_dangling 0.
Proof.
  exists 0, 7. split; [apply rtc_refl|]. split; [|done]. by exists 0%nat, d0.
Qed.

(** ** The traversal: the claims *)

(** C1: when following [connectivity] from [n] reaches the sentinel (so
    every link on the way names an existing index), [__find_box] returns
    and has appended to [xs] the pair [[x_min, x_max]] and to [ys] the
    pair [[y_min, y_max]] of every edge reachable from [n]; for boxes
    with [min <= max] the minimum and maximum over the collected pairs
    are the bounds of the union of the boxes.  For the two-edge chain
    [0,20]x[0,43], [25,45]x[53,93] the collected pairs give
    [0,45]x[0,93]. *)
Theorem C1_find_box_union_box :
  (∀ (num : Type) (num_le : num → num → bool) (es : list (Edge num)) (n : Z)
     (xs ys : list (list num)),
     total_order num_le →
     reaches_sentinel es n →
     ∃ l depth v es',
       (∀ p, p ∈ l ↔ reachable_edge es n p) ∧
       __find_box depth n (Store es xs ys)
       = (Return v, Store es' (xs ++ (xbox <$> l)) (ys ++ (ybox <$> l))) ∧
       ((∀ p, p ∈ l → num_le (x_min p.2) (x_max p.2) = true ∧
                       num_le (y_min p.2) (y_max p.2) = true) →
        ∃ xlo xhi ylo yhi,
          np_min num_le (xbox <$> l) = Some xlo ∧
          np_max num_le (xbox <$> l) = Some xhi ∧
          np_min num_le (ybox <$> l) = Some ylo ∧
          np_max num_le (ybox <$> l) = Some yhi ∧
          least_in num_le xlo ((λ p, x_min p.2) <$> l) ∧
          greatest_in num_le xhi ((λ p, x_max p.2) <$> l) ∧
          least_in num_le ylo ((λ p, y_min p.2) <$> l) ∧
          greatest_in num_le yhi ((λ p, y_max p.2) <$> l)))
  ∧
  (∃ es', __find_box 2 1 (Store two_chain [] [])
          = (Return PyNone, Store es' [[25; 45]; [0; 20]] [[53; 93]; [0; 43]]) ∧
          np_min Z.leb [[25; 45]; [0; 20]] = Some 0 ∧
          np_max Z.leb [[25; 45]; [0; 20]] = Some 45 ∧
          np_min Z.leb [[53; 93]; [0; 43]] = Some 0 ∧
          np_max Z.leb [[53; 93]; [0; 43]] = Some 93).
Proof.
  split.
  - intros num num_le es n xs ys Hord Hr.
    destruct (reaches_sentinel_chain _ _ Hr) as [l Hl].
    exists l, (length l), (chain_value l xs ys), (mark_all l.*1 es).
    split; [by apply chain_reachable|].
    split; [by apply (find_box_chain es n l Hl)|].
    intros Hwf.
    assert (concat (xbox <$> l) ≠ []) as Hx
      by (destruct l; [by apply chain_nonempty in Hl|done]).
    assert (concat (ybox <$> l) ≠ []) as Hy
      by (destruct l; [by apply chain_nonempty in Hl|done]).
    destruct (np_min_is_Some num_le _ Hx) as [xlo Hxlo].
    destruct (np_max_is_Some num_le _ Hx) as [xhi Hxhi].
    destruct (np_min_is_Some num_le _ Hy) as [ylo Hylo].
    destruct (np_max_is_Some num_le _ Hy) as [yhi Hyhi].
    exists xlo, xhi, ylo, yhi. repeat (split; [done|]).
    split; [|split; [|split]].
    + eapply (np_min_pairs num_le Hord _ (λ p, x_max p.2)); [|done].
      intros p Hp. by apply Hwf.
    + eapply (np_max_pairs num_le Hord (λ p, x_min p.2)); [|done].
      intros p Hp. by apply Hwf.
    + eapply (np_min_pairs num_le Hord _ (λ p, y_max p.2)); [|done].
      intros p Hp. by apply Hwf.
    + eapply (np_max_pairs num_le Hord (λ p, y_min p.2)); [|done].
      intros p Hp. by apply Hwf.
  - eexists. repeat split.
Qed.

Lemma C1_witness :
  ∃ l depth v es',
    (∀ p, p ∈ l ↔ reachable_edge two_chain 1 p) ∧
    __find_box depth 1 (Store two_chain [] [])
    = (Return v, Store es' ([] ++ (xbox <$> l)) ([] ++ (ybox <$> l))) ∧
    ((∀ p, p ∈ l → Z.leb (x_min p.2) (x_max p.2) = true ∧
                    Z.leb (y_min p.2) (y_max p.2) = true) →
     ∃ xlo xhi ylo yhi,
       np_min Z.leb (xbox <$> l) = Some xlo ∧
       np_max Z.leb (xbox <$> l) = Some xhi ∧
       np_min Z.leb (ybox <$> l) = Some ylo ∧
       np_max Z.leb (ybox <$> l) = Some yhi ∧
       least_in Z.leb xlo ((λ p, x_min p.2) <$> l) ∧
       greatest_in Z.leb xhi ((λ p, x_max p.2) <$> l) ∧
       least_in Z.leb ylo ((λ p, y_min p.2) <$> l) ∧
       greatest_in Z.leb yhi ((λ p, y_max p.2) <$> l)).
Proof.
  apply (proj1 C1_find_box_union_box Z Z.leb two_chain 1 [] []).
  - apply Z_leb_total_order.
  - apply two_chain_reaches_sentinel.
Defined.

(** C2: under the structural invariant (from every edge the sentinel is
    reached within N = [length es] steps) the traversal started at any
    index of the collection returns, at every depth from N on. *)
Theorem C2_find_box_terminates {num : Type} (es : list (Edge num)) (n : Z)
    (xs ys : list (list num)) :
  acyclic_within es →
  (∃ e, e ∈ es ∧ index e = n) →
  ∃ v st', ∀ depth, (length es ≤ depth)%nat →
    __find_box depth n (Store es xs ys) = (Return v, st').
Proof.
  intros Hinv (e & He & <-).
  destruct (Hinv e He) as (l & Hl & Hlen).
  eexists _, _. intros depth Hd.
  apply (find_box_chain es (index e) l Hl); [done|lia].
Qed.

Lemma C2_witness :
  ∃ v st', ∀ depth, (length two_chain ≤ depth)%nat →
    __find_box depth 1 (Store two_chain [] []) = (Return v, st').
Proof.
  apply (C2_find_box_terminates two_chain 1 [] []).
  - apply two_chain_acyclic.
  - exists e1. split; [right; left|reflexivity].
Defined.

(** C3, as the code has it: [__find_box] keeps no record of the edges it
    has visited.  Started on a connectivity cycle it neither returns nor
    raises at any depth: it exhausts every bound on the nesting of its
    calls, appending one pair to [xs] and to [ys] per call. *)
Theorem C3_find_box_cycle_overruns {num : Type} (es : list (Edge num)) (n : Z)
    (depth : nat) (xs ys : list (list num)) :
  on_cycle es n →
  ∃ st', __find_box depth n (Store es xs ys) = (Overrun, st') ∧
         length (st_xs st') = (length xs + depth)%nat ∧
         length (st_ys st') = (length ys + depth)%nat.
Proof.
  intros Hcyc. by apply (find_box_cycle es n Hcyc depth n es xs ys).
Qed.

Lemma C3_witness :
  ∃ st', __find_box 1000 0 (Store two_cycle [] []) = (Overrun, st') ∧
         length (st_xs st') = (length (@nil (list Z)) + 1000)%nat ∧
         length (st_ys st') = (length (@nil (list Z)) + 1000)%nat.
Proof.
  apply (C3_find_box_cycle_overruns two_cycle 0 1000 [] []).
  apply two_cycle_on_cycle.
Defined.

(** C3 as stated fails: on two edges whose connectivity fields point to
    each other, no depth makes [__find_box] end with an error. *)
Lemma C3_counterexample :
  on_cycle two_cycle 0 ∧
  ¬ ∃ depth err st', __find_box depth 0 (Store two_cycle [] []) = (Raise err, st').
Proof.
  split; [apply two_cycle_on_cycle|].
  intros (depth & err & st' & Hrun).
  destruct (find_box_cycle two_cycle 0 two_cycle_on_cycle depth 0 two_cycle [] [])
    as (st2 & Hrun2 & _); [done|done|congruence].
Qed.

(** C4, as the code has it: [__find_box] writes its bookkeeping into the
    edge records.  Whatever the outcome, every record is left as it was or
    with [box_plotted] set to [True] (no other field changes), and the
    record of the start edge is left with [box_plotted] set. *)
Theorem C4_find_box_sets_only_box_plotted {num : Type} (depth : nat) (n : Z)
    (es : list (Edge num)) (xs ys : list (list num)) :
  Forall2 same_or_marked es (st_edges (__find_box depth n (Store es xs ys)).2) ∧
  ∀ i e, first_with_index n es = Some (i, e) → depth ≠ 0%nat →
    st_edges (__find_box depth n (Store es xs ys)).2 !! i = Some (set_box_plotted e).
Proof.
  split; [apply (find_box_marks depth n (Store es xs ys))|].
  intros i e Hf Hd. destruct depth as [|depth]; [done|].
  rewrite (find_box_unfold _ _ _ _ _ _ _ Hf); cbv zeta.
  apply first_with_index_lookup in Hf as [Hi _].
  assert (alter set_box_plotted i es !! i = Some (set_box_plotted e)) as Hset
    by (by rewrite list_lookup_alter_eq, Hi).
  destruct (decide (connectivity e ≠ -1)); [|done].
  match goal with |- context [__find_box depth ?c ?s] =>
    pose proof (find_box_marks depth c s) as Hm;
    destruct (__find_box depth c s) as [[v|err|] st2] end;
    simpl in *; by eapply marked_lookup_set.
Qed.

Lemma C4_witness :
  st_edges (__find_box 2 1 (Store two_chain [] [])).2 !! 1%nat
  = Some (set_box_plotted e1).
Proof.
  apply (proj2 (C4_find_box_sets_only_box_plotted 2 1 two_chain [] []) 1%nat e1).
  - reflexivity.
  - lia.
Defined.

(** C4 as stated fails: after [__find_box] has returned on the two-edge
    chain, both records differ from what they were. *)
Lemma C4_counterexample :
  ∃ v st', __find_box 2 1 (Store two_chain [] []) = (Return v, st') ∧
           st_edges st' ≠ two_chain ∧
           st_edges st' = [set_box_plotted e0; set_box_plotted e1].
Proof. eexists _, _. split; [reflexivity|]. split; [discriminate|reflexivity]. Qed.

(** C6: when an edge reachable from [n] has a [connectivity] that is
    neither the sentinel nor the index of an edge of the collection,
    [__find_box] ends with the IndexError of the failed lookup, at every
    depth that reaches the dangling link. *)
Theorem C6_find_box_dangling_raises {num : Type} (es : list (Edge num)) (n : Z)
    (xs ys : list (list num)) :
  reaches_dangling es n →
  ∃ depth st', ∀ depth', (depth ≤ depth')%nat →
    __find_box depth' n (Store es xs ys) = (Raise IndexError, st').
Proof.
  intros (m & c & Hr & Hl & Hc).
  destruct (find_box_dangling es n m c Hr Hl Hc es xs ys) as (depth & st' & Hrun);
    [done|].
  exists depth, st'. intros depth' Hd.
  by eapply find_box_deeper.
Qed.

Lemma C6_witness :
  ∃ depth st', ∀ depth', (depth ≤ depth')%nat →
    __find_box depth' 0 (Store one_dangling [] []) = (Raise IndexError, st').
Proof.
  apply (C6_find_box_dangling_raises one_dangling 0 [] []).
  apply one_dangling_reaches.
Defined.

(** C9: a call of [__find_box] returns the pair [(xs, ys)] only when the
    start edge carries the sentinel; when the start edge is linked, a call
    that returns evaluates to [None] (and it does return when the chain
    reaches the sentinel), the pairs of the whole chain being left in the
    caller's [xs] and [ys]. *)
Theorem C9_find_box_return_value {num : Type} (es : list (Edge num)) (n : Z)
    (xs ys : list (list num)) (i : nat) (e : Edge num) :
  first_with_index n es = Some (i, e) →
  (connectivity e = -1 →
     ∀ depth, depth ≠ 0%nat →
       __find_box depth n (Store es xs ys)
       = (Return (PyTuple (xs ++ [[x_min e; x_max e]]) (ys ++ [[y_min e; y_max e]])),
          Store (alter set_box_plotted i es)
                (xs ++ [[x_min e; x_max e]]) (ys ++ [[y_min e; y_max e]]))) ∧
  (connectivity e ≠ -1 →
     (∀ depth v st', __find_box depth n (Store es xs ys) = (Return v, st') →
        v = PyNone ∧
        ∃ l, chain es n l ∧
             st_xs st' = xs ++ (xbox <$> l) ∧ st_ys st' = ys ++ (ybox <$> l)) ∧
     (reaches_sentinel es n →
        ∃ depth st', __find_box depth n (Store es xs ys) = (Return PyNone, st'))).
Proof.
  intros Hf. split.
  - intros Hc [|depth] Hd; [done|].
    rewrite (find_box_unfold _ _ _ _ _ _ _ Hf); cbv zeta.
    by rewrite decide_False by (intros ?; done).
  - intros Hc. split.
    + intros depth v st' Hrun.
      destruct (find_box_returns_chain _ _ _ _ _ _ _ Hrun) as (l & Hl & Hlen).
      rewrite (find_box_chain es n l Hl depth es xs ys) in Hrun by done.
      injection Hrun as <- <-. split; [|eauto].
      inversion Hl as [? i' e' Hf' Hc'|? i' e' l' Hf' Hc' Hl']; simplify_eq.
      destruct l'; [by apply chain_nonempty in Hl'|done].
    + intros Hr. destruct (reaches_sentinel_chain _ _ Hr) as [l Hl].
      exists (length l). eexists.
      rewrite (find_box_chain es n l Hl (length l) es xs ys) by done.
      inversion Hl as [? i' e' Hf' Hc'|? i' e' l' Hf' Hc' Hl']; simplify_eq.
      destruct l'; [by apply chain_nonempty in Hl'|done].
Qed.

Lemma C9_witness :
  (connectivity e1 = -1 →
     ∀ depth, depth ≠ 0%nat →
       __find_box depth 1 (Store two_chain [] [])
       = (Return (PyTuple ([] ++ [[x_min e1; x_max e1]]) ([] ++ [[y_min e1; y_max e1]])),
          Store (alter set_box_plotted 1%nat two_chain)
                ([] ++ [[x_min e1; x_max e1]]) ([] ++ [[y_min e1; y_max e1]]))) ∧
  (connectivity e1 ≠ -1 →
     (∀ depth v st', __find_box depth 1 (Store two_chain [] []) = (Return v, st') →
        v = PyNone ∧
        ∃ l, chain two_chain 1 l ∧
             st_xs st' = [] ++ (xbox <$> l) ∧ st_ys st' = [] ++ (ybox <$> l)) ∧
     (reaches_sentinel two_chain 1 →
        ∃ depth st', __find_box depth 1 (Store two_chain [] []) = (Return PyNone, st'))).
Proof.
  apply (C9_find_box_return_value two_chain 1 [] [] 1%nat e1).
  reflexivity.
Defined.

(** ** The box-plotting loop *)

Section Marks.
Context {num : Type}.
Implicit Types (es : list (Edge num)) (e : Edge num) (ps : list nat).

Lemma mark_all_cons p ps es :
  mark_all (p :: ps) es = mark_all ps (alter set_box_plotted p es).
Proof. reflexivity. Qed.

Lemma same_links_mark_all ps es : same_links es (mark_all ps es).
Proof.
  revert es. induction ps as [|p ps IH]; intros es; [done|].
  rewrite mark_all_cons. eapply same_links_trans; [apply same_links_alter|apply IH].
Qed.

(** An edge that carries a mark after [mark_all] sits at a marked
    position or carried the mark before. *)
Lemma mark_all_lookup_inv ps es j e :
  mark_all ps es !! j = Some e → j ∈ ps ∨ es !! j = Some e.
Proof.
  revert es. induction ps as [|p ps IH]; intros es Hj; [by right|].
  rewrite mark_all_cons in Hj. destruct (IH _ Hj) as [?|Hj'].
  - left. by right.
  - destruct (decide (p = j)) as [->|Hne]; [left; left|right].
    by rewrite list_lookup_alter_ne in Hj'.
Qed.

End Marks.

Section PlotLoop.
Implicit Types (es : list (Edge Z)) (e : Edge Z) (log : list plot_event).

Lemma calls_app log log' : calls (log ++ log') = calls log ++ calls log'.
Proof. apply omap_app. Qed.

Lemma fills_app log log' : fills (log ++ log') = fills log ++ fills log'.
Proof. apply omap_app. Qed.

(** After a traversal that returned, [fill_box] draws a box. *)
Lemma fill_box_draws shape (xs ys : list (list Z)) :
  concat xs ≠ [] → concat ys ≠ [] →
  ∃ bx by_, fill_box shape xs ys = Return (EvFill bx by_).
Proof.
  intros Hx Hy. unfold fill_box.
  destruct (np_min_is_Some Z.leb _ Hx) as [? ->].
  destruct (np_max_is_Some Z.leb _ Hx) as [? ->].
  destruct (np_min_is_Some Z.leb _ Hy) as [? ->].
  destruct (np_max_is_Some Z.leb _ Hy) as [? ->].
  eauto.
Qed.


Lemma plot_inv_skip es0 k es log e :
  plot_inv es0 k es log → es !! k = Some e → box_plotted e = true →
  plot_inv es0 (S k) es log.
Proof.
  intros (Hs & Hflag & Hsub & Hroot & Hlen) Hk Hb.
  symmetry in Hs.
  destruct (same_links_lookup _ _ _ _ Hs Hk) as (ek & Hk0 & He).
  apply reset_eq_fields in He as (Hidx & _).
  split; [done|]. split; [|split; [|split]]; [| | |done].
  - intros j e' Hj Hb'. destruct (Hflag j e' Hj Hb'); [left; lia|by right].
  - rewrite (take_S_r _ _ _ Hk0), fmap_app. by apply sublist_inserts_r.
  - intros j e' Hj Hj0 Hnt. destruct (decide (j = k)) as [->|Hne].
    + rewrite Hk0 in Hj0. injection Hj0 as <-.
      destruct (Hflag k e Hk Hb) as [?|Ht]; [lia|]. by rewrite <- Hidx in Ht.
    + apply (Hroot j e'); [lia|done|done].
Qed.

Lemma plot_inv_call es0 k es log e l ev :
  plot_inv es0 k es log → es !! k = Some e →
  chain es0 (index e) l →
  (∃ bx by_, ev = EvFill bx by_) →
  plot_inv es0 (S k)
    (alter set_box_plotted k (mark_all l.*1 es))
    ((log ++ [EvFindBox (index e)]) ++ [ev]).
Proof.
  intros (Hs & Hflag & Hsub & Hroot & Hlen) Hk Hl (bx & by_ & ->).
  pose proof Hs as Hs'. symmetry in Hs'.
  destruct (same_links_lookup _ _ _ _ Hs' Hk) as (ek & Hk0 & He).
  apply reset_eq_fields in He as (Hidx & _).
  split; [|split; [|split; [|split]]].
  - eapply same_links_trans; [done|].
    eapply same_links_trans; [apply same_links_mark_all|apply same_links_alter].
  - intros j e' Hj Hb'. destruct (decide (j = k)) as [->|Hne]; [left; lia|].
    rewrite list_lookup_alter_ne in Hj by done.
    destruct (mark_all_lookup_inv _ _ _ _ Hj) as [Hin|Hj'].
    + assert (same_links es0 (mark_all l.*1 es)) as Hs2
        by (eapply same_links_trans; [done|apply same_links_mark_all]).
      symmetry in Hs2.
      destruct (same_links_lookup _ _ _ _ Hs2 Hj) as (ej & Hj0 & Hej).
      apply reset_eq_fields in Hej as (Hidxj & _).
      destruct (chain_head _ _ _ Hl) as (i0 & eh & l' & -> & Hf).
      rewrite fmap_cons in Hin. apply elem_of_cons in Hin as [->|Hin].
      * left. simpl. apply list_find_Some in Hf as (_ & _ & Hmin).
        destruct (decide (i0 ≤ k)%nat); [lia|].
        exfalso. apply (Hmin k ek); [done|lia|done].
      * right. apply list_elem_of_fmap in Hin as ([j' ej'] & -> & Hin).
        pose proof (chain_lookup _ _ _ Hl) as Hlk.
        pose proof (chain_tail_targets _ _ _ Hl) as Htg.
        simpl in Htg. rewrite Forall_forall in Htg. specialize (Htg _ Hin).
        apply Forall_cons in Hlk as [_ Hlk].
        rewrite Forall_forall in Hlk. specialize (Hlk _ Hin). simpl in *.
        rewrite Hlk in Hj0. injection Hj0 as <-. by rewrite <- Hidxj.
    + destruct (Hflag j e' Hj' Hb'); [left; lia|by right].
  - rewrite !calls_app, app_nil_r. simpl.
    rewrite (take_S_r _ _ _ Hk0), fmap_app. apply sublist_app; [done|].
    simpl. by rewrite Hidx.
  - intros j e' Hj Hj0 Hnt. rewrite !calls_app, app_nil_r. simpl.
    destruct (decide (j = k)) as [->|Hne].
    + rewrite Hk0 in Hj0. injection Hj0 as <-.
      rewrite <- Hidx. apply elem_of_app. right. left.
    + apply elem_of_app. left. apply (Hroot j e'); [lia|done|done].
  - rewrite !calls_app, !fills_app, !length_app. simpl. lia.
Qed.

(** The loop from position [k] on runs to its end and keeps every
    invariant [I] that the two branches of its body keep. *)
Lemma plot_boxes_loop (I : nat → list (Edge Z) → list plot_event → Prop)
    es0 depth shape :
  linker_invariant es0 → (length es0 ≤ depth)%nat →
  (∀ k es log, I k es log → same_links es0 es) →
  (∀ k es log e,
     I k es log → es !! k = Some e → box_plotted e = true → I (S k) es log) →
  (∀ k es log e l bx by_,
     I k es log → es !! k = Some e → box_plotted e = false →
     chain es0 (index e) l →
     I (S k) (alter set_box_plotted k (mark_all l.*1 es))
       ((log ++ [EvFindBox (index e)]) ++ [EvFill bx by_])) →
  ∀ m k es log,
    (k + m)%nat = length es0 →
    I k es log →
    ∃ es' log',
      plot_boxes depth shape (seq k m) es log = (Return tt, (es', log')) ∧
      I (length es0) es' log'.
Proof.
  intros Hinv Hdepth Hsame Hskip Hcall.
  induction m as [|m IH]; intros k es log Hkm HI.
  - exists es, log. split; [done|]. by replace (length es0) with k by lia.
  - pose proof (Hsame _ _ _ HI) as Hs.
    assert (is_Some (es !! k)) as [e Hk].
    { apply lookup_lt_is_Some. rewrite <- (same_links_length _ _ Hs). lia. }
    simpl. rewrite Hk.
    destruct (box_plotted e) eqn:Hb.
    + apply IH; [lia|]. by eapply Hskip.
    + pose proof Hs as Hs'. symmetry in Hs'.
      destruct (same_links_lookup _ _ _ _ Hs' Hk) as (ek & Hk0 & He).
      apply reset_eq_fields in He as (Hidx & _).
      destruct (linker_invariant_acyclic _ Hinv ek) as (l & Hl & Hlen);
        [by eapply list_elem_of_lookup_2|].
      rewrite Hidx in Hl.
      rewrite (find_box_chain es0 (index e) l Hl depth es [] []) by (done || lia).
      simpl.
      assert (l ≠ []) as Hne by (by eapply chain_nonempty).
      destruct (fill_box_draws shape (xbox <$> l) (ybox <$> l)) as (bx & by_ & ->);
        [by destruct l..|].
      apply IH; [lia|]. by eapply Hcall.
Qed.

Lemma plot_inv_init es0 : unplotted es0 → plot_inv es0 0 es0 [].
Proof.
  intros Hun. split; [done|]. split; [|split; [|split]]; [| | |done].
  - intros j e Hj Hb. apply list_elem_of_lookup_2 in Hj.
    rewrite (Hun e Hj) in Hb. done.
  - simpl. constructor.
  - intros j e Hj. lia.
Qed.

(** *** Links that point forward in the list *)

Lemma flagged_alter es k j : flagged es j → flagged (alter set_box_plotted k es) j.
Proof.
  intros (e & Hj & Hb). destruct (decide (k = j)) as [->|Hne].
  - exists (set_box_plotted e). by rewrite list_lookup_alter_eq, Hj.
  - exists e. by rewrite list_lookup_alter_ne.
Qed.

Lemma flagged_mark_all ps es j : flagged es j → flagged (mark_all ps es) j.
Proof.
  revert es. induction ps as [|p ps IH]; intros es Hj; [done|].
  rewrite mark_all_cons. by apply IH, flagged_alter.
Qed.

Lemma flagged_marked ps es j :
  j ∈ ps → (j < length es)%nat → flagged (mark_all ps es) j.
Proof.
  revert es. induction ps as [|p ps IH]; intros es Hin Hlen;
    [by apply elem_of_nil in Hin|].
  rewrite mark_all_cons. apply elem_of_cons in Hin as [->|Hin].
  - apply flagged_mark_all. destruct (lookup_lt_is_Some_2 es p Hlen) as [e He].
    exists (set_box_plotted e). by rewrite list_lookup_alter_eq, He.
  - apply IH; [done|]. by rewrite length_alter.
Qed.

(** With unique indices an edge is the first with its index. *)
Lemma first_with_index_NoDup es k e :
  NoDup (index <$> es) → es !! k = Some e →
  first_with_index (index e) es = Some (k, e).
Proof.
  intros Hnd Hk. apply list_find_Some. split; [done|]. split; [done|].
  intros j y Hj Hlt Hy.
  assert (j = k); [|lia].
  eapply (NoDup_lookup _ _ _ _ Hnd); rewrite list_lookup_fmap.
  - by rewrite Hj.
  - by rewrite Hk, Hy.
Qed.

(** A chain holds the target of each of its links. *)
Lemma chain_successor es n (l : list (nat * Edge Z)) :
  chain es n l →
  ∀ j e j' e', (j, e) ∈ l → connectivity e ≠ -1 →
    first_with_index (connectivity e) es = Some (j', e') → j' ∈ l.*1.
Proof.
  induction 1 as [n i e Hf Hc|n i e l Hf Hc Hl IH]; intros j ej j' e' Hin Hne Hf'.
  - apply list_elem_of_singleton in Hin. by simplify_eq.
  - rewrite fmap_cons. apply elem_of_cons in Hin as [Heq|Hin].
    + simplify_eq. right.
      destruct (chain_head _ _ _ Hl) as (i1 & eh & l' & -> & Hfh).
      rewrite Hf' in Hfh. simplify_eq. rewrite fmap_cons. left.
    + right. by eapply IH.
Qed.

Lemma plot_inv_fwd_skip es0 k es log e :
  plot_inv_fwd es0 k es log → es !! k = Some e → box_plotted e = true →
  plot_inv_fwd es0 (S k) es log.
Proof.
  intros (Hpast & Hclosed & Hcalls) Hk Hb. split; [|done].
  intros j Hj Hlen. destruct (decide (j = k)) as [->|Hne]; [by exists e|].
  apply Hpast; lia.
Qed.

Lemma plot_inv_fwd_call es0 k es log e l bx by_ :
  NoDup (index <$> es0) → forward_links es0 →
  same_links es0 es →
  plot_inv_fwd es0 k es log → es !! k = Some e → box_plotted e = false →
  chain es0 (index e) l →
  plot_inv_fwd es0 (S k)
    (alter set_box_plotted k (mark_all l.*1 es))
    ((log ++ [EvFindBox (index e)]) ++ [EvFill bx by_]).
Proof.
  intros Hnd Hfwd Hs (Hpast & Hclosed & Hcalls) Hk Hb Hl.
  pose proof Hs as Hs'. symmetry in Hs'.
  destruct (same_links_lookup _ _ _ _ Hs' Hk) as (ek & Hk0 & He).
  apply reset_eq_fields in He as (Hidx & _).
  pose proof (first_with_index_NoDup _ _ _ Hnd Hk0) as Hfk. rewrite Hidx in Hfk.
  destruct (chain_head _ _ _ Hl) as (i0 & eh & l' & Heql & Hfh).
  rewrite Hfk in Hfh. injection Hfh as <- <-.
  assert (k ∈ l.*1) as Hkin by (rewrite Heql, fmap_cons; left).
  assert (length (mark_all l.*1 es) = length es0) as Hlen.
  { rewrite <- (same_links_length _ _ (same_links_mark_all l.*1 es)).
    symmetry. by apply same_links_length. }
  split; [|split].
  - intros j Hj Hjlen. apply flagged_alter. destruct (decide (j = k)) as [->|Hne].
    + apply flagged_marked; [done|]. rewrite <- (same_links_length _ _ Hs).
      by eapply lookup_lt_Some.
    + apply flagged_mark_all, Hpast; lia.
  - intros j e2 j' e' Hj Hb2 Hc Hf'. apply flagged_alter.
    assert (same_links es0 (alter set_box_plotted k (mark_all l.*1 es))) as Hs2.
    { eapply same_links_trans; [done|].
      eapply same_links_trans; [apply same_links_mark_all|apply same_links_alter]. }
    symmetry in Hs2.
    destruct (same_links_lookup _ _ _ _ Hs2 Hj) as (ej & Hj0 & Hej).
    apply reset_eq_fields in Hej as (_ & Hcj & _).
    destruct (decide (j ∈ l.*1)) as [Hin|Hnin].
    + apply flagged_marked.
      * apply (chain_successor _ _ _ Hl j ej j' e'); [|congruence|congruence].
        apply list_elem_of_fmap in Hin as ([j2 e3] & -> & Hin).
        pose proof (chain_lookup _ _ _ Hl) as Hlk.
        rewrite Forall_forall in Hlk. specialize (Hlk _ Hin). simpl in *.
        by simplify_eq.
      * rewrite <- (same_links_length _ _ Hs).
        apply first_with_index_lookup in Hf' as [Hf' _]. by eapply lookup_lt_Some.
    + assert (j ≠ k) as Hne by (by intros ->).
      rewrite list_lookup_alter_ne in Hj by done.
      destruct (mark_all_lookup_inv _ _ _ _ Hj) as [?|Hj']; [done|].
      apply flagged_mark_all. by eapply Hclosed.
  - intros n. rewrite !calls_app, app_nil_r. simpl.
    intros [Hn|Hn]%elem_of_app; [by apply Hcalls|].
    apply list_elem_of_singleton in Hn as ->.
    intros (ep & Hep & Hcp & Hne).
    apply list_elem_of_lookup in Hep as [p Hp].
    pose proof (Hfwd p ep k ek Hp) as Hlt.
    rewrite Hcp in Hlt. specialize (Hlt Hne Hfk).
    destruct (Hpast p Hlt) as (ep' & Hp' & Hbp); [by eapply lookup_lt_Some|].
    destruct (same_links_lookup _ _ _ _ Hs' Hp') as (ep2 & Hp2 & Hep2).
    apply reset_eq_fields in Hep2 as (_ & Hcp2 & _).
    rewrite Hp in Hp2. injection Hp2 as <-.
    destruct (Hclosed p ep' k ek Hp' Hbp) as (e2 & Hk2 & Hb2); [congruence|congruence|].
    rewrite Hk in Hk2. injection Hk2 as <-. congruence.
Qed.

Lemma plot_inv_fwd_init es0 : unplotted es0 → plot_inv_fwd es0 0 es0 [].
Proof.
  intros Hun. split; [|split].
  - intros j Hj. lia.
  - intros j e j' e' Hj Hb. apply list_elem_of_lookup_2 in Hj.
    rewrite (Hun e Hj) in Hb. done.
  - intros n Hn. by apply elem_of_nil in Hn.
Qed.

(** *** The edges an invocation starts from *)

Lemma visits_refl es0 k e : es0 !! k = Some e → visits es0 k k.
Proof. intros Hk. by exists e, e. Qed.

Lemma visits_trans es0 i j k : visits es0 i j → visits es0 j k → visits es0 i k.
Proof.
  intros (ei & ej & Hi & Hj & Hr) (ej' & ek & Hj' & Hk & Hr').
  rewrite Hj in Hj'. injection Hj' as <-.
  exists ei, ek. split; [done|]. split; [done|]. by etrans.
Qed.

(** With unique indices, the chain of an edge holds the positions that a
    traversal from this edge visits. *)
Lemma chain_visits es0 k e l :
  NoDup (index <$> es0) → es0 !! k = Some e → chain es0 (index e) l →
  ∀ j, j ∈ l.*1 ↔ visits es0 k j.
Proof.
  intros Hnd Hk Hl j. split.
  - intros ([j' ej] & -> & Hin)%list_elem_of_fmap.
    apply (chain_reachable _ _ _ Hl) in Hin as (m & Hr & Hf).
    apply first_with_index_lookup in Hf as [Hj Hm]. simpl.
    exists e, ej. split; [done|]. split; [done|]. by rewrite Hm.
  - intros (ek & ej & Hk' & Hj & Hr). rewrite Hk in Hk'. injection Hk' as <-.
    apply list_elem_of_fmap. exists (j, ej). split; [done|].
    apply (chain_reachable _ _ _ Hl). exists (index ej). split; [done|].
    by apply first_with_index_NoDup.
Qed.

Lemma flagged_alter_inv es k j :
  flagged (alter set_box_plotted k es) j → j = k ∨ flagged es j.
Proof.
  intros (e & Hj & Hb). destruct (decide (j = k)) as [->|Hne]; [by left|right].
  rewrite list_lookup_alter_ne in Hj by done. by exists e.
Qed.

Lemma flagged_mark_all_inv ps es j :
  flagged (mark_all ps es) j → j ∈ ps ∨ flagged es j.
Proof.
  intros (e & Hj & Hb).
  destruct (mark_all_lookup_inv _ _ _ _ Hj) as [?|Hj']; [by left|right].
  by exists e.
Qed.

Lemma plot_inv_exact_skip es0 k es log e :
  plot_inv_exact es0 k es log → es !! k = Some e → box_plotted e = true →
  plot_inv_exact es0 (S k) es log.
Proof.
  intros (Hfl & Hcalls & Hp) Hk Hb.
  assert (reached_before es0 k) as (i0 & Hi0 & Hv0).
  { apply Hfl. by exists e. }
  split; [|split; [|done]].
  - intros j. rewrite Hfl. split.
    + intros (i & Hi & Hv). exists i. split; [lia|done].
    + intros (i & Hi & Hv). destruct (decide (i = k)) as [->|Hne].
      * exists i0. split; [done|]. by eapply visits_trans.
      * exists i. split; [lia|done].
  - intros j ej Hj. rewrite (Hcalls j ej Hj). split.
    + intros [Hlt Hnr]. split; [lia|done].
    + intros [Hlt Hnr]. split; [|done].
      destruct (decide (j = k)) as [->|Hne]; [|lia].
      exfalso. apply Hnr. by exists i0.
Qed.

Lemma plot_inv_exact_call es0 k es log e l bx by_ :
  NoDup (index <$> es0) → same_links es0 es →
  plot_inv_exact es0 k es log → es !! k = Some e → box_plotted e = false →
  chain es0 (index e) l →
  plot_inv_exact es0 (S k)
    (alter set_box_plotted k (mark_all l.*1 es))
    ((log ++ [EvFindBox (index e)]) ++ [EvFill bx by_]).
Proof.
  intros Hnd Hs (Hfl & Hcalls & Hp) Hk Hb Hl.
  pose proof Hs as Hs'. symmetry in Hs'.
  destruct (same_links_lookup _ _ _ _ Hs' Hk) as (ek & Hk0 & He).
  apply reset_eq_fields in He as (Hidx & _).
  rewrite <- Hidx in Hl.
  pose proof (chain_visits _ _ _ _ Hnd Hk0 Hl) as Hvis.
  assert (¬ reached_before es0 k) as Hnr.
  { intros Hr. apply Hfl in Hr as (e' & Hk' & Hb'). congruence. }
  split; [|split].
  - intros j. split.
    + intros [->|[Hin|Hf]%flagged_mark_all_inv]%flagged_alter_inv.
      * exists k. split; [lia|]. by eapply visits_refl.
      * exists k. split; [lia|]. by apply Hvis.
      * apply Hfl in Hf as (i & Hi & Hv). exists i. split; [lia|done].
    + intros (i & Hi & Hv). apply flagged_alter.
      destruct (decide (i = k)) as [->|Hne].
      * apply flagged_marked; [by apply Hvis|].
        rewrite <- (same_links_length _ _ Hs).
        destruct Hv as (? & ej & _ & Hj & _). by eapply lookup_lt_Some.
      * apply flagged_mark_all, Hfl. exists i. split; [lia|done].
  - intros j ej Hj. rewrite !calls_app, app_nil_r. simpl.
    rewrite elem_of_app, list_elem_of_singleton, (Hcalls j ej Hj). split.
    + intros [[Hlt Hn]|Heq].
      * split; [lia|done].
      * assert (j = k) as ->.
        { eapply (NoDup_lookup _ _ _ _ Hnd); rewrite list_lookup_fmap.
          - by rewrite Hj.
          - rewrite Hk0. simpl. congruence. }
        split; [lia|done].
    + intros [Hlt Hn]. destruct (decide (j = k)) as [->|Hne].
      * right. rewrite Hk0 in Hj. injection Hj as <-. done.
      * left. split; [lia|done].
  - by constructor.
Qed.

Lemma plot_inv_exact_init es0 : unplotted es0 → plot_inv_exact es0 0 es0 [].
Proof.
  intros Hun. split; [|split; [|constructor]].
  - intros j. split.
    + intros (e & Hj & Hb). apply list_elem_of_lookup_2 in Hj.
      rewrite (Hun e Hj) in Hb. done.
    + intros (i & Hi & _). lia.
  - intros j e Hj. simpl. split; [by intros ?%elem_of_nil|intros [? _]; lia].
Qed.

(** An edge that no earlier edge leads to is one that no earlier
    invocation has visited: the first edge that leads to it would have
    started an invocation. *)
Lemma started_iff_not_visited es0 log :
  (∀ j e, es0 !! j = Some e → index e ∈ calls log ↔ ¬ reached_before es0 j) →
  ∀ k e, es0 !! k = Some e →
    index e ∈ calls log ↔ ¬ visited_before es0 log k.
Proof.
  intros Hstart k e Hk. rewrite (Hstart k e Hk). split.
  - intros Hnr (i & ei & Hi & _ & _ & Hv). apply Hnr. by exists i.
  - intros Hnv (i & Hi & Hv). revert Hi Hv.
    induction (lt_wf i) as [i _ IH]. intros Hi Hv.
    pose proof Hv as (ei & ek & Hei & _ & _).
    destruct (decide (index ei ∈ calls log)) as [Hin|Hnin].
    + apply Hnv. by exists i, ei.
    + rewrite (Hstart i ei Hei) in Hnin. apply Hnin. intros (i' & Hi' & Hv').
      apply (IH i'); [done|lia|by eapply visits_trans].
Qed.

End PlotLoop.

(** C5, as the code has it: on a collection with unique indices that
    satisfies the Linker's invariant and has no flag set, the box-plotting
    loop runs to its end; it invokes [__find_box] at most once per edge
    and exactly once from every chain root, and draws one box per
    invocation: every invocation is directly followed by its box.  The
    invocations follow the order of the list, and one starts from an
    edge, root or not, exactly when no earlier invocation has visited
    this edge, that is, when no edge listed before it leads to it; only
    when every link targets an edge that comes later in the list do all
    invocations start at chain roots. *)
Theorem C5_plot_boxes_once_per_root (depth : nat) (shape : Z * Z)
    (es : list (Edge Z)) :
  NoDup (index <$> es) → linker_invariant es → unplotted es →
  (length es ≤ depth)%nat →
  ∃ es' log,
    plot_figures_boxes depth shape es = (Return tt, (es', log)) ∧
    NoDup (calls log) ∧
    (∀ n, n ∈ calls log → ∃ e, e ∈ es ∧ index e = n) ∧
    (∀ e, is_root es e → index e ∈ calls log) ∧
    length (fills log) = length (calls log) ∧
    (forward_links es → ∀ n, n ∈ calls log → ∃ e, is_root es e ∧ index e = n) ∧
    paired log ∧
    calls log `sublist_of` (index <$> es) ∧
    (∀ k e, es !! k = Some e →
       index e ∈ calls log ↔ ¬ visited_before es log k) ∧
    (∀ k e, es !! k = Some e →
       index e ∈ calls log ↔ ¬ reached_before es k).
Proof.
  intros Hnd Hinv Hun Hdepth.
  destruct (plot_boxes_loop
              (λ k es1 log1, plot_inv es k es1 log1 ∧ plot_inv_exact es k es1 log1)
              es depth shape Hinv Hdepth)
    with (m := length es) (k := 0%nat) (es := es) (log := @nil plot_event)
    as (es' & log & Hrun & (Hs & Hflag & Hsub & Hroot & Hlen)
        & (Hmarks & Hstart & Hpaired)).
  { by intros k es1 log1 [[? _] _]. }
  { intros k es1 log1 e [HI HE] Hk Hb. split;
      [by eapply plot_inv_skip|by eapply plot_inv_exact_skip]. }
  { intros k es1 log1 e l bx by_ [HI HE] Hk Hb Hl. split.
    - eapply plot_inv_call; eauto.
    - eapply plot_inv_exact_call; eauto. by destruct HI. }
  { done. }
  { split; [by apply plot_inv_init|by apply plot_inv_exact_init]. }
  rewrite firstn_all in Hsub.
  assert (∀ n, n ∈ calls log → ∃ e, e ∈ es ∧ index e = n) as Hidx.
  { intros n Hn. eapply elem_of_sublist in Hn; [|done].
    apply list_elem_of_fmap in Hn as (e & -> & He). eauto. }
  assert (∀ k e, es !! k = Some e →
            index e ∈ calls log ↔ ¬ reached_before es k) as Hexact.
  { intros k e Hk. rewrite (Hstart k e Hk). split; [by intros [_ ?]|].
    intros Hnr. split; [by eapply lookup_lt_Some|done]. }
  exists es', log. split; [done|].
  split; [by eapply sublist_NoDup|]. split; [done|].
  split; [|split; [done|]].
  { intros e [He Hnt]. apply list_elem_of_lookup in He as [j Hj].
    apply (Hroot j e); [by eapply lookup_lt_Some|done|done]. }
  split; [|split; [done|split; [done|split; [|done]]]].
  - intros Hfwd n Hn.
    destruct (plot_boxes_loop
                (λ k es1 log1, plot_inv es k es1 log1 ∧ plot_inv_fwd es k es1 log1)
                es depth shape Hinv Hdepth)
      with (m := length es) (k := 0%nat) (es := es) (log := @nil plot_event)
      as (es2 & log2 & Hrun2 & _ & _ & _ & Hcalls).
    { by intros k es1 log1 [[? _] _]. }
    { intros k es1 log1 e [HI HF] Hk Hb. split;
        [by eapply plot_inv_skip|by eapply plot_inv_fwd_skip]. }
    { intros k es1 log1 e l bx by_ [HI HF] Hk Hb Hl. split.
      - eapply plot_inv_call; eauto.
      - eapply plot_inv_fwd_call; eauto. by destruct HI. }
    { done. }
    { split; [by apply plot_inv_init|by apply plot_inv_fwd_init]. }
    unfold plot_figures_boxes in Hrun. rewrite Hrun in Hrun2.
    injection Hrun2 as <- <-.
    destruct (Hidx n Hn) as (e & He & <-).
    exists e. split; [|done]. split; [done|]. by apply Hcalls.
  - by apply started_iff_not_visited.
Qed.

Lemma two_chain_unplotted : unplotted two_chain.
Proof.
  intros e [->|[->|[]%elem_of_nil]%elem_of_cons]%elem_of_cons; reflexivity.
Qed.

Lemma two_chain_NoDup : NoDup (index <$> two_chain).
Proof.
  apply NoDup_cons. split; [|apply NoDup_singleton].
  by intros ?%list_elem_of_singleton.
Qed.

Lemma two_chain_rev_linker_invariant : linker_invariant two_chain_rev.
Proof.
  intros e [->|[->|[]%elem_of_nil]%elem_of_cons]%elem_of_cons.
  - right. split; [done|]. exists e0. split; [right; left|done].
  - by left.
Qed.

Lemma two_chain_rev_unplotted : unplotted two_chain_rev.
Proof.
  intros e [->|[->|[]%elem_of_nil]%elem_of_cons]%elem_of_cons; reflexivity.
Qed.

Lemma two_chain_rev_NoDup : NoDup (index <$> two_chain_rev).
Proof.
  apply NoDup_cons. split; [|apply NoDup_singleton].
  by intros ?%list_elem_of_singleton.
Qed.

Lemma two_chain_rev_forward : forward_links two_chain_rev.
Proof.
  intros [|[|i]] e j e' Hi Hc Hf; [| |done].
  - injection Hi as <-. vm_compute in Hf. injection Hf as <- _. lia.
  - injection Hi as <-. done.
Qed.

(** Listed root first, the two-edge chain gets one invocation and one
    box. *)
Example plot_two_chain_rev :
  ∃ es', plot_figures_boxes 2 (100, 100) two_chain_rev
         = (Return tt, (es', [EvFindBox 1; EvFill [0; 0; 55; 55] [0; 100; 100; 0]])).
Proof. eexists. reflexivity. Qed.

Lemma C5_witness :
  ∃ es' log,
    plot_figures_boxes 2 (100, 100) two_chain_rev = (Return tt, (es', log)) ∧
    NoDup (calls log) ∧
    (∀ n, n ∈ calls log → ∃ e, e ∈ two_chain_rev ∧ index e = n) ∧
    (∀ e, is_root two_chain_rev e → index e ∈ calls log) ∧
    length (fills log) = length (calls log) ∧
    (forward_links two_chain_rev →
     ∀ n, n ∈ calls log → ∃ e, is_root two_chain_rev e ∧ index e = n) ∧
    paired log ∧
    calls log `sublist_of` (index <$> two_chain_rev) ∧
    (∀ k e, two_chain_rev !! k = Some e →
       index e ∈ calls log ↔ ¬ visited_before two_chain_rev log k) ∧
    (∀ k e, two_chain_rev !! k = Some e →
       index e ∈ calls log ↔ ¬ reached_before two_chain_rev k).
Proof.
  apply (C5_plot_boxes_once_per_root 2 (100, 100) two_chain_rev).
  - apply two_chain_rev_NoDup.
  - apply two_chain_rev_linker_invariant.
  - apply two_chain_rev_unplotted.
  - simpl. lia.
Defined.

(** C5 as stated fails: the two-edge chain satisfies the Linker's
    invariant and has the single root edge 1 (one streak), and the loop
    invokes [__find_box] twice, first from edge 0, which is not a root,
    and draws two boxes. *)
Lemma C5_counterexample :
  NoDup (index <$> two_chain) ∧ linker_invariant two_chain ∧
  unplotted two_chain ∧
  (∀ e, is_root two_chain e ↔ e = e1) ∧
  ∃ es' log,
    plot_figures_boxes 2 (100, 100) two_chain = (Return tt, (es', log)) ∧
    calls log = [0; 1] ∧
    fills log = [([0; 0; 30; 30], [0; 53; 53; 0]);
                 ([0; 0; 55; 55], [0; 100; 100; 0])].
Proof.
  split; [apply two_chain_NoDup|].
  split; [apply two_chain_linker_invariant|].
  split; [apply two_chain_unplotted|].
  split.
  - intros e. split.
    + intros [[->|[->|[]%elem_of_nil]%elem_of_cons]%elem_of_cons Hnt]; [|done].
      exfalso. apply Hnt. exists e1. split; [right; left|done].
    + intros ->. split; [right; left|].
      intros (e & [->|[->|[]%elem_of_nil]%elem_of_cons]%elem_of_cons & Hc & _);
        discriminate.
  - eexists _, _. split; [reflexivity|]. split; reflexivity.
Qed.

(** ** The pipeline order *)

(** C7: [detect] removes the background first, then [__detect_streaks]
    extracts the contours of the background-subtracted image, runs
    Quantify, Filter and Link in this order, each on the whole object the
    previous stage left, and stores the edges of the filtered and linked
    object in [self.streaks]. *)
Theorem C7_detect_stage_order
    {num ndarray contour bkg_t edge_obj : Type}
    (Background : ndarray → Z * Z → bkg_t)
    (background : bkg_t → ndarray)
    (background_rms_median : bkg_t → num)
    (subtract : ndarray → ndarray → ndarray)
    (times : num → num → num)
    (find_contours : ndarray → num → list contour)
    (EDGE : list contour → edge_obj)
    (quantify filter_edges connect_edges : edge_obj → edge_obj)
    (get_edges : edge_obj → list (Edge num))
    (self : Streak (num := num) (ndarray := ndarray) (bkg_t := bkg_t)) :
  let bkg := Background (raw_image self) (bkg_box_size self, bkg_box_size self) in
  let img := subtract (raw_image self) (background bkg) in
  let contours :=
    find_contours img (times (background_rms_median bkg) (contour_threshold self)) in
  ∃ self',
    detect Background background background_rms_median subtract times
           find_contours EDGE quantify filter_edges connect_edges get_edges self
    = (Return tt, self') ∧
    stages self' = stages self ++
                   [StBackground; StFindContours; StQuantify; StFilter; StLink] ∧
    image self' = Some img ∧
    raw_edges self' = Some (get_edges (quantify (EDGE contours))) ∧
    streaks self'
    = Some (get_edges (connect_edges (filter_edges (quantify (EDGE contours))))).
Proof.
  intros bkg img contours. eexists. split; [reflexivity|].
  simpl. rewrite <- (assoc_L (++)). done.
Qed.

(** ** The report *)

Local Arguments String.append !_ _ : simpl nomatch.

Section StringLemmas.

Lemma string_app_assoc (a b c : string) : (a +:+ b) +:+ c = a +:+ (b +:+ c).
Proof. induction a as [|x a IH]; simpl; congruence. Qed.

Lemma has_newline_app (a b : string) :
  has_newline (a +:+ b) = has_newline a || has_newline b.
Proof.
  induction a as [|x a IH]; simpl; [done|]. by destruct (decide (x = nl)).
Qed.

(** A line without newline followed by its terminator is cut off as one
    line. *)
Lemma split_lines_line (s t : string) :
  has_newline s = false →
  split_lines (s +:+ String nl t) = s :: split_lines t.
Proof.
  induction s as [|c s IH]; simpl.
  - intros _. by destruct (decide (nl = nl)).
  - destruct (decide (c = nl)); [done|]. intros Hs. by rewrite (IH Hs).
Qed.

Lemma last_char_app_char (s : string) (c : ascii) :
  last_char (s +:+ String c EmptyString) = Some c.
Proof.
  induction s as [|x s IH]; [done|].
  simpl. simpl in IH. rewrite IH. by destruct s.
Qed.

Lemma last_char_cons (c : ascii) (s : string) :
  s ≠ EmptyString → last_char (String c s) = last_char s.
Proof. by destruct s. Qed.

Lemma last_char_is_Some (s : string) :
  s ≠ EmptyString → is_Some (last_char s).
Proof.
  induction s as [|c s IH]; [done|]. intros _.
  destruct s as [|c' s]; [by eexists|].
  rewrite last_char_cons by done. by apply IH.
Qed.

End StringLemmas.

Section ReportLemmas.
Context {num : Type}.
Variable render_d : nat → Z → string.
Variable render_f : nat → nat → num → string.
Hypothesis render_d_line : ∀ w z, has_newline (render_d w z) = false.
Hypothesis render_f_line : ∀ w p x, has_newline (render_f w p x) = false.

Local Abbreviation report_line e := (join_blank (report_fields render_d render_f e)).

Lemma header_split : header = header_line +:+ String nl EmptyString.
Proof. reflexivity. Qed.

Lemma header_line_no_newline : has_newline header_line = false.
Proof. reflexivity. Qed.

(** The [%] operator puts the ten values in the order of the tuple. *)
Lemma py_format_line (e : Edge num) :
  py_format render_d render_f line_format (line_args e)
  = Some (report_line e +:+ String nl EmptyString).
Proof.
  simpl. f_equal. symmetry.
  repeat (rewrite string_app_assoc; simpl). reflexivity.
Qed.

Lemma join_blank_no_newline (fields : list string) :
  Forall (λ f, has_newline f = false) fields →
  has_newline (join_blank fields) = false.
Proof.
  induction 1 as [|f fields Hf Hfs IH]; [done|].
  destruct fields as [|g fields]; [done|].
  change (has_newline (f +:+ (" " +:+ join_blank (g :: fields))) = false).
  rewrite has_newline_app, Hf. simpl (_ || _).
  change (has_newline (String " "%char (join_blank (g :: fields))) = false).
  simpl has_newline at 1. by destruct (decide (" "%char = nl)).
Qed.

Lemma report_line_no_newline (e : Edge num) : has_newline (report_line e) = false.
Proof.
  apply join_blank_no_newline. unfold report_fields.
  repeat constructor; first [apply render_d_line | apply render_f_line].
Qed.


Lemma write_lines_cons (e : Edge num) (es : list (Edge num)) (fp : string) :
  write_lines render_d render_f (e :: es) fp
  = match py_format render_d render_f line_format (line_args e) with
    | None => Raise TypeError
    | Some line => write_lines render_d render_f es (fp +:+ line)
    end.
Proof. reflexivity. Qed.

Lemma string_app_empty_r (s : string) : s +:+ EmptyString = s.
Proof. induction s as [|c s IH]; simpl; congruence. Qed.

Lemma write_lines_text (es : list (Edge num)) (fp : string) :
  write_lines render_d render_f es fp = Return (fp +:+ report_text render_d render_f es).
Proof.
  revert fp. induction es as [|e es IH]; intros fp.
  - simpl. by rewrite string_app_empty_r.
  - rewrite write_lines_cons, py_format_line, IH.
    change (report_text render_d render_f (e :: es))
      with ((report_line e +:+ String nl EmptyString) +:+ report_text render_d render_f es).
    by rewrite !string_app_assoc.
Qed.

Lemma split_lines_report_text (es : list (Edge num)) :
  split_lines (report_text render_d render_f es) = (λ e, report_line e) <$> es.
Proof.
  induction es as [|e es IH]; [done|].
  change (report_text render_d render_f (e :: es))
    with ((report_line e +:+ String nl EmptyString) +:+ report_text render_d render_f es).
  rewrite string_app_assoc.
  change (String nl EmptyString +:+ report_text render_d render_f es) with (String nl (report_text render_d render_f es)).
  rewrite split_lines_line by apply report_line_no_newline.
  by rewrite IH.
Qed.

End ReportLemmas.

(** C8: when no rendered value contains a newline, the file written by
    [write_outputs] consists of the header line naming the ten fields
    followed by exactly one line per edge, in the order of the list, each
    holding the ten values of the edge in the order index, x_center,
    y_center, area, perimeter, shape_factor, radius_deviation, slope_angle,
    intercept, connectivity. *)
Theorem C8_write_outputs_lines {num : Type}
    (render_d : nat → Z → string) (render_f : nat → nat → num → string)
    (streaks : list (Edge num)) :
  (∀ w z, has_newline (render_d w z) = false) →
  (∀ w p x, has_newline (render_f w p x) = false) →
  ∃ text,
    write_outputs render_d render_f streaks = Return text ∧
    split_lines text
    = header_line ::
      ((λ e, join_blank
               [render_d 2%nat (index e); render_f 7%nat 2%nat (x_center e);
                render_f 7%nat 2%nat (y_center e); render_f 6%nat 1%nat (area e);
                render_f 6%nat 1%nat (perimeter e); render_f 6%nat 3%nat (shape_factor e);
                render_f 6%nat 2%nat (radius_deviation e); render_f 5%nat 2%nat (slope_angle e);
                render_f 7%nat 2%nat (intercept e); render_d 2%nat (connectivity e)])
       <$> streaks) ∧
    length (split_lines text) = S (length streaks).
Proof.
  intros Hd Hf. unfold write_outputs.
  rewrite (write_lines_text render_d render_f). eexists. split; [reflexivity|].
  assert (split_lines (header +:+ report_text render_d render_f streaks)
          = header_line ::
            ((λ e, join_blank (report_fields render_d render_f e)) <$> streaks))
    as Hsplit.
  { rewrite header_split, string_app_assoc.
    change (String nl EmptyString +:+ ?t) with (String nl t).
    rewrite split_lines_line by apply header_line_no_newline.
    by rewrite split_lines_report_text. }
  split; [exact Hsplit|].
  rewrite Hsplit. simpl. by rewrite length_fmap.
Qed.


Lemma C8_witness :
  ∃ text,
    write_outputs demo_render_d demo_render_f two_chain = Return text ∧
    split_lines text
    = header_line ::
      ((λ e, join_blank
               [demo_render_d 2%nat (index e); demo_render_f 7%nat 2%nat (x_center e);
                demo_render_f 7%nat 2%nat (y_center e); demo_render_f 6%nat 1%nat (area e);
                demo_render_f 6%nat 1%nat (perimeter e); demo_render_f 6%nat 3%nat (shape_factor e);
                demo_render_f 6%nat 2%nat (radius_deviation e);
                demo_render_f 5%nat 2%nat (slope_angle e);
                demo_render_f 7%nat 2%nat (intercept e); demo_render_d 2%nat (connectivity e)])
       <$> two_chain) ∧
    length (split_lines text) = S (length two_chain).
Proof.
  apply (C8_write_outputs_lines demo_render_d demo_render_f two_chain).
  - intros w z. unfold demo_render_d. destruct (decide (z < 0)); reflexivity.
  - intros w p x. unfold demo_render_f. destruct (decide (x < 0)); reflexivity.
Defined.

(** ** The output path *)

(** C10: when [__init__] returns, [self.output_path] ends with ['/'],
    whatever string was supplied (it does return for every non-empty
    string); without a supplied path it is ['./<name>/'] where [<name>] is
    the basename of [filename] up to its first dot. *)
Theorem C10_output_path_ends_with_slash (filename : string) :
  (∀ output_path p,
     init_output_path filename output_path = Return p →
     last_char p = Some "/"%char) ∧
  (∀ s, s ≠ EmptyString →
     ∃ p, init_output_path filename (Some s) = Return p) ∧
  init_output_path filename None
  = Return ("./" +:+ (before_first "."%char (basename filename) +:+ "/")).
Proof.
  assert (Hnone : last_char ("./" +:+ (before_first "."%char (basename filename) +:+ "/"))
                  = Some "/"%char).
  { change ("./" +:+ ?x) with (String "."%char (String "/"%char x)).
    rewrite !last_char_cons; [apply last_char_app_char| |done].
    by destruct (before_first _ _). }
  split; [|split].
  - intros output_path p. unfold init_output_path.
    destruct output_path as [s|].
    + destruct (last_char s) as [c|] eqn:Hc; [|done].
      destruct (decide (c ≠ "/"%char)) as [Hne|Heq]; intros [= <-].
      * apply last_char_app_char.
      * rewrite Hc. f_equal. by destruct (decide (c = "/"%char)).
    + rewrite Hnone. rewrite decide_False by (intros ?; done).
      by intros [= <-].
  - intros s Hs. unfold init_output_path.
    destruct (last_char_is_Some s Hs) as [c ->].
    destruct (decide (c ≠ "/"%char)); eauto.
  - unfold init_output_path. rewrite Hnone.
    by rewrite decide_False by (intros ?; done).
Qed.

Lemma C10_witness :
  last_char "out/" = Some "/"%char.
Proof.
  apply (proj1 (C10_output_path_ends_with_slash "long.fits") (Some "out") "out/").
  reflexivity.
Defined.

(** An empty [output_path] makes [__init__] raise at [output_path[-1]]. *)
Lemma init_output_path_empty (filename : string) :
  init_output_path filename (Some EmptyString) = Raise IndexError.
Proof. reflexivity. Qed.

Example init_output_path_default :
  init_output_path "./datasets/samples/long.fits" None = Return "./long/".
Proof. reflexivity. Qed.

Example init_output_path_two_dots :
  init_output_path "/data/night.1/long.fits.gz" None = Return "./long/".
Proof. reflexivity. Qed.

(** * Further properties of the traversal *)

Section TrailLemmas.
Context {num : Type}.
Implicit Types (es : list (Edge num)) (e : Edge num) (n m : Z).
Implicit Types (l : list (nat * Edge num)) (xs ys : list (list num)).

Lemma chain_trail es n l : chain es n l → trail es n l None.
Proof. induction 1; by econstructor. Qed.

Lemma trail_chain es n l : trail es n l None → chain es n l.
Proof.
  intros H. remember None as stop eqn:Hs.
  induction H; simplify_eq; by econstructor; eauto.
Qed.

Lemma trail_det es n l l' stop stop' :
  trail es n l stop → trail es n l' stop' → l = l' ∧ stop = stop'.
Proof.
  intros H. revert l' stop'.
  induction H as [n Hf|n i e Hf Hc|n i e l stop Hf Hc Hl IH];
    intros l' stop' H'; inversion H'; simplify_eq; try done.
  destruct (IH _ _ ltac:(eassumption)) as [-> ->]. done.
Qed.

Lemma trail_lookup es n l stop :
  trail es n l stop →
  Forall (λ p, first_with_index (index p.2) es = Some p) l.
Proof.
  induction 1 as [n Hf|n i e Hf Hc|n i e l stop Hf Hc Hl IH];
    [constructor| |];
    pose proof (first_with_index_lookup _ _ _ _ Hf) as [_ <-];
    by repeat constructor.
Qed.

Lemma trail_stop_missing es n l stop c :
  trail es n l stop → stop = Some c → first_with_index c es = None.
Proof. induction 1; intros; simplify_eq; eauto. Qed.

(** From each of its members on, a trail is the trail of that member. *)
Lemma trail_suffix es n l stop p :
  trail es n l stop → p ∈ l →
  ∃ l2, l2 `suffix_of` l ∧ trail es (index p.2) l2 stop.
Proof.
  induction 1 as [n Hf|n i e Hf Hc|n i e l stop Hf Hc Hl IH]; intros Hp.
  - by apply elem_of_nil in Hp.
  - apply list_elem_of_singleton in Hp as ->. exists [(i, e)]. split; [done|].
    pose proof (first_with_index_lookup _ _ _ _ Hf) as [_ <-]. by constructor.
  - apply elem_of_cons in Hp as [->|Hp].
    + exists ((i, e) :: l). split; [done|].
      pose proof (first_with_index_lookup _ _ _ _ Hf) as [_ <-]. by constructor.
    + destruct (IH Hp) as (l2 & Hsuf & Ht). exists l2. split; [|done].
      by apply suffix_cons_r.
Qed.

(** A trail visits no position twice. *)
Lemma trail_NoDup es n l stop : trail es n l stop → NoDup l.*1.
Proof.
  induction 1 as [n Hf|n i e Hf Hc|n i e l stop Hf Hc Hl IH].
  - constructor.
  - apply NoDup_singleton.
  - rewrite fmap_cons. apply NoDup_cons. split; [|done]. simpl.
    intros Hin. apply list_elem_of_fmap in Hin as ([j e2] & Hj & Hin).
    simpl in Hj. subst j.
    pose proof (trail_lookup _ _ _ _ Hl) as Hlk.
    rewrite Forall_forall in Hlk. specialize (Hlk _ Hin). simpl in Hlk.
    apply first_with_index_lookup in Hlk as [Hi2 _].
    pose proof (first_with_index_lookup _ _ _ _ Hf) as [Hi Hidx].
    rewrite Hi in Hi2. injection Hi2 as <-.
    destruct (trail_suffix _ _ _ _ _ Hl Hin) as (l2 & Hsuf & Ht). simpl in Ht.
    rewrite Hidx in Ht.
    assert (trail es n ((i, e) :: l) stop) as Hfull by (by constructor).
    destruct (trail_det _ _ _ _ _ _ Ht Hfull) as [-> _].
    by apply suffix_cons_not in Hsuf.
Qed.

(** A trail is no longer than the collection. *)
Lemma trail_length es n l stop : trail es n l stop → (length l ≤ length es)%nat.
Proof.
  intros Ht.
  cut (length l.*1 ≤ length (seq 0 (length es)))%nat;
    [by rewrite length_fmap, length_seq|].
  apply submseteq_length, NoDup_submseteq; [by eapply trail_NoDup|].
  intros i Hi. apply list_elem_of_fmap in Hi as ([j e] & -> & Hin).
  pose proof (trail_lookup _ _ _ _ Ht) as Hlk.
  rewrite Forall_forall in Hlk. specialize (Hlk _ Hin). simpl in *.
  apply first_with_index_lookup in Hlk as [Hj _].
  apply elem_of_seq. split; [lia|]. simpl. by eapply lookup_lt_Some.
Qed.

Lemma trail_same_links es es' n l stop :
  same_links es es' → trail es n l stop →
  ∃ l', trail es' n l' stop ∧ l'.*1 = l.*1 ∧ xbox <$> l' = xbox <$> l ∧
        ybox <$> l' = ybox <$> l.
Proof.
  intros Hs. induction 1 as [n Hf|n i e Hf Hc|n i e l stop Hf Hc Hl IH].
  - exists []. split; [|done]. constructor.
    by eapply first_with_index_same_links_None.
  - destruct (first_with_index_same_links _ _ _ _ _ Hs Hf) as (e' & Hf' & He).
    apply reset_eq_fields in He as (_ & Hc' & Hx1 & Hx2 & Hy1 & Hy2).
    exists [(i, e')]. split; [constructor; [done|congruence]|].
    unfold xbox, ybox. simpl. by rewrite Hx1, Hx2, Hy1, Hy2.
  - destruct (first_with_index_same_links _ _ _ _ _ Hs Hf) as (e' & Hf' & He).
    apply reset_eq_fields in He as (_ & Hc' & Hx1 & Hx2 & Hy1 & Hy2).
    destruct IH as (l' & Hl' & Hp & Hx & Hy).
    exists ((i, e') :: l'). split; [constructor; [done|congruence|by rewrite Hc']|].
    rewrite !fmap_cons, Hp, Hx, Hy. unfold xbox, ybox. simpl.
    by rewrite Hx1, Hx2, Hy1, Hy2.
Qed.

(** Along a trail the traversal ends as the trail does, leaving every
    member marked and its pairs appended. *)
Lemma find_box_trail es n l stop :
  trail es n l stop →
  ∀ depth es' xs ys,
    same_links es es' → (trail_calls l stop ≤ depth)%nat →
    __find_box depth n (Store es' xs ys)
    = (trail_outcome l stop xs ys,
       Store (mark_all l.*1 es') (xs ++ (xbox <$> l)) (ys ++ (ybox <$> l))).
Proof.
  induction 1 as [n Hf|n i e Hf Hc|n i e l stop Hf Hc Hl IH];
    intros depth es' xs ys Hs Hd;
    (destruct depth as [|depth];
     [unfold trail_calls in Hd; repeat case_match; simpl in Hd; lia|]).
  - rewrite find_box_missing by (by eapply first_with_index_same_links_None).
    simpl. by rewrite !app_nil_r.
  - apply (find_box_chain es n [(i, e)] (chain_last _ _ _ _ Hf Hc));
      [done|simpl; lia].
  - destruct (first_with_index_same_links _ _ _ _ _ Hs Hf) as (e' & Hf' & He).
    apply reset_eq_fields in He as (_ & Hc' & Hx1 & Hx2 & Hy1 & Hy2).
    rewrite (find_box_unfold _ _ _ _ _ _ _ Hf'); cbv zeta.
    rewrite Hc', Hx1, Hx2, Hy1, Hy2.
    rewrite decide_True by done.
    rewrite (IH depth); [| |unfold trail_calls in *; destruct stop; simpl in Hd; lia].
    + rewrite <- !(assoc_L (++)). simpl.
      destruct stop; [done|].
      destruct l; [|done]. inversion Hl.
    + eapply same_links_trans; [done|]. apply same_links_alter.
Qed.

(** A traversal that returned or raised has followed a trail. *)
Lemma find_box_finished depth n es xs ys r st' :
  __find_box depth n (Store es xs ys) = (r, st') → r ≠ Overrun →
  ∃ l stop, trail es n l stop ∧ (trail_calls l stop ≤ depth)%nat.
Proof.
  revert n es xs ys r st'.
  induction depth as [|depth IH]; intros n es xs ys r st' Hrun Hr;
    [simpl in Hrun; congruence|].
  destruct (first_with_index n es) as [[i e]|] eqn:Hf.
  - rewrite (find_box_unfold _ _ _ _ _ _ _ Hf) in Hrun; cbv zeta in *.
    destruct (decide (connectivity e ≠ -1)) as [Hc|Hc].
    + match type of Hrun with context [__find_box depth ?c ?s] =>
        destruct (__find_box depth c s) as [r2 st2] eqn:Hin end.
      assert (r2 ≠ Overrun) as Hr2 by (intros ->; simplify_eq).
      destruct (IH _ _ _ _ _ _ Hin Hr2) as (l & stop & Hl & Hlen).
      pose proof (same_links_alter es i) as Hs. symmetry in Hs.
      destruct (trail_same_links _ _ _ _ _ Hs Hl) as (l' & Hl' & Hp & _).
      exists ((i, e) :: l'), stop. split; [by constructor|].
      assert (length l' = length l) as Hll
        by (rewrite <- (length_fmap fst l'), Hp; apply length_fmap).
      destruct stop; simpl in *; lia.
    + exists [(i, e)], None. split; [|simpl; lia].
      constructor; [done|]. by destruct (decide (connectivity e = -1)).
  - exists [], (Some n). split; [by constructor|simpl; lia].
Qed.

(** Every start index has a trail or leads into a cycle. *)
Lemma trail_or_cycle es :
  ∀ k (visited : list nat) m,
    NoDup visited →
    (length es ≤ length visited + k)%nat →
    (∀ p, p ∈ visited →
       (p < length es)%nat ∧
       ∃ a e, first_with_index a es = Some (p, e) ∧ tc (link es) a m) →
    (∃ l stop, trail es m l stop) ∨ reaches_cycle es m.
Proof.
  induction k as [|k IH]; intros visited m Hnd Hlen Hvis.
  all: destruct (first_with_index m es) as [[i e]|] eqn:Hf;
    [|left; exists [], (Some m); by constructor].
  all: destruct (decide (i ∈ visited)) as [Hin|Hnin];
    [right; exists m; split; [done|];
     destruct (Hvis i Hin) as (_ & a & e' & Hfa & Htc);
     pose proof (first_with_index_lookup _ _ _ _ Hf) as [Hi Hidx];
     pose proof (first_with_index_lookup _ _ _ _ Hfa) as [Hi' Hidx'];
     rewrite Hi in Hi'; injection Hi' as <-;
     unfold on_cycle; congruence|].
  all: assert (length (i :: visited) ≤ length es)%nat as Hbound.
  1,3: cut (length (i :: visited) ≤ length (seq 0 (length es)))%nat;
    [by rewrite length_seq|];
    apply submseteq_length, NoDup_submseteq; [by apply NoDup_cons|];
    intros p [->|Hp]%elem_of_cons; apply elem_of_seq; (split; [lia|]); simpl;
    [apply first_with_index_lookup in Hf as [Hf _]; by eapply lookup_lt_Some
    |by apply Hvis].
  - simpl in Hbound. lia.
  - destruct (decide (connectivity e = -1)) as [Hc|Hc];
      [left; exists [(i, e)], None; by constructor|].
    assert (link es m (connectivity e)) as Hlk by (by exists i, e).
    destruct (IH (i :: visited) (connectivity e)) as [(l & stop & Hl)|(c & Hr & Hcyc)].
    + by apply NoDup_cons.
    + simpl. lia.
    + intros p [->|Hp]%elem_of_cons.
      * split; [by eapply lookup_lt_Some, first_with_index_lookup|].
        exists m, e. split; [done|]. by apply tc_once.
      * destruct (Hvis p Hp) as (Hlt & a & e' & Hfa & Htc).
        split; [done|]. exists a, e'. split; [done|]. by eapply tc_r.
    + left. exists ((i, e) :: l), stop. by constructor.
    + right. exists c. split; [|done]. by eapply rtc_l.
Qed.

Lemma trail_or_reaches_cycle es n :
  (∃ l stop, trail es n l stop) ∨ reaches_cycle es n.
Proof.
  apply (trail_or_cycle es (length es) [] n); [constructor|simpl; lia|].
  intros p Hp. by apply elem_of_nil in Hp.
Qed.

End TrailLemmas.

Section Visits.
Context {num : Type}.
Implicit Types (es : list (Edge num)) (e : Edge num) (n m : Z).
Implicit Types (l : list (nat * Edge num)) (xs ys : list (list num)).

Lemma mark_all_lookup_notin (ps : list nat) es j :
  j ∉ ps → mark_all ps es !! j = es !! j.
Proof.
  revert es. induction ps as [|p ps IH]; intros es Hj; [done|].
  apply not_elem_of_cons in Hj as [Hne Hj].
  rewrite mark_all_cons, IH by done. by apply list_lookup_alter_ne.
Qed.

(** Whatever the outcome, the traversal has visited a list of edges, each
    the first with its index, no more than [depth] of them; these are the
    edges it has marked and whose pairs it has appended. *)
Lemma find_box_visits es :
  ∀ depth n es' xs ys,
    same_links es es' →
    ∃ l, (length l ≤ depth)%nat ∧
         Forall (λ p, first_with_index (index p.2) es = Some p) l ∧
         (__find_box depth n (Store es' xs ys)).2
         = Store (mark_all l.*1 es') (xs ++ (xbox <$> l)) (ys ++ (ybox <$> l)).
Proof.
  induction depth as [|depth IH]; intros n es' xs ys Hs.
  - exists []. split; [done|]. split; [constructor|]. simpl. by rewrite !app_nil_r.
  - destruct (first_with_index n es') as [[i e']|] eqn:Hf'.
    + pose proof Hs as Hs'. symmetry in Hs'.
      destruct (first_with_index_same_links _ _ _ _ _ Hs' Hf') as (e & Hf & He).
      apply reset_eq_fields in He as (_ & Hc & Hx1 & Hx2 & Hy1 & Hy2).
      pose proof (first_with_index_lookup _ _ _ _ Hf) as [_ Hidx].
      rewrite (find_box_unfold _ _ _ _ _ _ _ Hf'); cbv zeta.
      rewrite <- Hx1, <- Hx2, <- Hy1, <- Hy2.
      destruct (decide (connectivity e' ≠ -1)).
      * destruct (IH (connectivity e') (alter set_box_plotted i es')
                     (xs ++ [[x_min e; x_max e]]) (ys ++ [[y_min e; y_max e]]))
          as (l & Hlen & Hall & Hst).
        { eapply same_links_trans; [done|]. apply same_links_alter. }
        exists ((i, e) :: l). split; [simpl; lia|].
        split; [constructor; [simpl; by rewrite Hidx|done]|].
        match goal with |- context [__find_box depth ?c ?s] =>
          destruct (__find_box depth c s) as [r2 st2] end.
        simpl in Hst. subst st2.
        destruct r2; simpl; by rewrite <- !(assoc_L (++)).
      * exists [(i, e)]. split; [simpl; lia|].
        split; [constructor; [simpl; by rewrite Hidx|constructor]|]. done.
    + rewrite find_box_missing by done.
      exists []. split; [simpl; lia|]. split; [constructor|].
      simpl. by rewrite !app_nil_r.
Qed.

Lemma trail_dangling es n l c :
  trail es n l (Some c) → l ≠ [] → reaches_dangling es n.
Proof.
  intros H. remember (Some c) as stop eqn:Hs.
  induction H as [n Hf|n i e Hf Hc|n i e l stop Hf Hc Hl IH]; intros Hne;
    [done|done|]. subst stop.
  assert (link es n (connectivity e)) as Hlk by (by exists i, e).
  destruct l as [|p l].
  - inversion Hl; subst. exists n, (connectivity e). split; [done|]. done.
  - destruct IH as (m & c' & Hr & Hlk' & Hmiss); [done|done|].
    exists m, c'. split; [by eapply rtc_l|done].
Qed.

End Visits.

(** X1: a traversal that returns or raises at some depth already does so,
    with the same result and the same final state, within
    [len(edges) + 1] nested calls, and a traversal that returns needs at
    most [len(edges)] of them. *)
Theorem X1_find_box_depth_bound {num : Type} (depth : nat) (n : Z)
    (es : list (Edge num)) (xs ys : list (list num))
    (r : outcome (pyval num)) (st' : store num) :
  __find_box depth n (Store es xs ys) = (r, st') → r ≠ Overrun →
  __find_box (S (length es)) n (Store es xs ys) = (r, st') ∧
  (∀ v, r = Return v → __find_box (length es) n (Store es xs ys) = (r, st')).
Proof.
  intros Hrun Hr.
  destruct (find_box_finished _ _ _ _ _ _ _ Hrun Hr) as (l & stop & Hl & Hcalls).
  pose proof (trail_length _ _ _ _ Hl) as Hlen.
  rewrite (find_box_trail es n l stop Hl depth es xs ys) in Hrun by done.
  injection Hrun as <- <-. split.
  - apply (find_box_trail es n l stop Hl); [done|].
    unfold trail_calls. destruct stop; lia.
  - intros v Hv. apply (find_box_trail es n l stop Hl); [done|].
    unfold trail_calls, trail_outcome in *. by destruct stop.
Qed.

Lemma X1_witness :
  __find_box (S (length two_chain)) 1 (Store two_chain [] [])
  = (Return (@PyNone Z),
     Store [set_box_plotted e0; set_box_plotted e1]
           [[25; 45]; [0; 20]] [[53; 93]; [0; 43]]) ∧
  (∀ v, Return (@PyNone Z) = Return v →
     __find_box (length two_chain) 1 (Store two_chain [] [])
     = (Return (@PyNone Z),
        Store [set_box_plotted e0; set_box_plotted e1]
              [[25; 45]; [0; 20]] [[53; 93]; [0; 43]])).
Proof.
  apply (X1_find_box_depth_bound 9 1 two_chain [] []).
  - reflexivity.
  - discriminate.
Defined.

(** X2: a traversal returns exactly when following [connectivity] from
    the start reaches the sentinel, and it then returns at every depth
    from [len(edges)] on. *)
Theorem X2_find_box_returns_iff_sentinel {num : Type} (n : Z)
    (es : list (Edge num)) (xs ys : list (list num)) :
  (reaches_sentinel es n →
   ∃ v st', ∀ depth, (length es ≤ depth)%nat →
     __find_box depth n (Store es xs ys) = (Return v, st')) ∧
  (∀ depth v st',
     __find_box depth n (Store es xs ys) = (Return v, st') →
     reaches_sentinel es n).
Proof.
  split.
  - intros Hr. destruct (reaches_sentinel_chain _ _ Hr) as [l Hl].
    pose proof (trail_length _ _ _ _ (chain_trail _ _ _ Hl)) as Hlen.
    eexists _, _. intros depth Hd.
    apply (find_box_chain es n l Hl); [done|lia].
  - intros depth v st' Hrun.
    destruct (find_box_returns_chain _ _ _ _ _ _ _ Hrun) as (l & Hl & _).
    by eapply chain_reaches_sentinel.
Qed.

Lemma X2_witness :
  ∃ v st', ∀ depth, (length two_chain ≤ depth)%nat →
    __find_box depth 1 (Store two_chain [] []) = (Return v, st').
Proof.
  apply (proj1 (X2_find_box_returns_iff_sentinel 1 two_chain [] [])).
  apply two_chain_reaches_sentinel.
Defined.

(** X3: a traversal that raises does so with the IndexError of the lookup
    of an index that no edge carries: the start index itself, or the
    [connectivity] of a reachable edge.  Nothing is rolled back: the edges
    visited before the failing lookup are left marked and their pairs are
    left in [xs] and [ys]. *)
Theorem X3_find_box_raise_leaves_partial_state {num : Type} (depth : nat) (n : Z)
    (es : list (Edge num)) (xs ys : list (list num)) (err : exn)
    (st' : store num) :
  __find_box depth n (Store es xs ys) = (Raise err, st') →
  err = IndexError ∧
  ∃ l c,
    trail es n l (Some c) ∧ first_with_index c es = None ∧
    ((l = [] ∧ c = n) ∨ (l ≠ [] ∧ reaches_dangling es n)) ∧
    st' = Store (mark_all l.*1 es) (xs ++ (xbox <$> l)) (ys ++ (ybox <$> l)).
Proof.
  intros Hrun.
  destruct (find_box_finished _ _ _ _ _ _ _ Hrun) as (l & stop & Hl & Hcalls);
    [done|].
  rewrite (find_box_trail es n l stop Hl depth es xs ys) in Hrun by done.
  destruct stop as [c|]; [|done]. injection Hrun as <- <-.
  split; [done|]. exists l, c. split; [done|].
  split; [by eapply trail_stop_missing|]. split; [|done].
  destruct l as [|p l].
  - left. inversion Hl; by subst.
  - right. split; [done|]. by eapply trail_dangling.
Qed.

Lemma X3_witness :
  IndexError = IndexError ∧
  ∃ l c,
    trail one_dangling 0 l (Some c) ∧ first_with_index c one_dangling = None ∧
    ((l = [] ∧ c = 0) ∨ (l ≠ [] ∧ reaches_dangling one_dangling 0)) ∧
    Store [set_box_plotted d0] [[0; 20]] [[0; 43]]
    = Store (mark_all l.*1 one_dangling) ([] ++ (xbox <$> l)) ([] ++ (ybox <$> l)).
Proof.
  apply (X3_find_box_raise_leaves_partial_state 5 0 one_dangling [] [] IndexError).
  reflexivity.
Defined.

(** X4: whatever the outcome (returned, raised, or still running when the
    depth is used up), the lists [xs] and [ys] are only extended at their
    end, by the same number of pairs, at most one per nested call; each
    new pair is [[x_min, x_max]], respectively [[y_min, y_max]], of an
    edge of the collection, and the edges keep their number. *)
Theorem X4_find_box_extends_xs_ys {num : Type} (depth : nat) (n : Z)
    (es : list (Edge num)) (xs ys : list (list num)) :
  ∃ visited : list (Edge num),
    (length visited ≤ depth)%nat ∧
    Forall (λ e, e ∈ es) visited ∧
    st_xs (__find_box depth n (Store es xs ys)).2
    = xs ++ ((λ e, [x_min e; x_max e]) <$> visited) ∧
    st_ys (__find_box depth n (Store es xs ys)).2
    = ys ++ ((λ e, [y_min e; y_max e]) <$> visited) ∧
    length (st_edges (__find_box depth n (Store es xs ys)).2) = length es.
Proof.
  destruct (find_box_visits es depth n es xs ys) as (l & Hlen & Hall & Hst);
    [done|].
  exists l.*2. rewrite length_fmap. split; [done|]. split.
  - apply Forall_fmap. eapply Forall_impl; [done|]. simpl.
    intros [i e] Hf. apply first_with_index_lookup in Hf as [Hi _].
    by eapply list_elem_of_lookup_2.
  - rewrite Hst. simpl. rewrite <- !list_fmap_compose.
    split; [done|]. split; [done|].
    symmetry. apply same_links_length, same_links_mark_all.
Qed.

(** X5: an edge that is not the first of the list with its index is out
    of the traversal's reach: no lookup selects it, so whatever the start
    index and the outcome it is left exactly as it was. *)
Theorem X5_find_box_ignores_later_duplicates {num : Type} (depth : nat) (n : Z)
    (es : list (Edge num)) (xs ys : list (list num))
    (i j : nat) (e e' : Edge num) :
  es !! i = Some e → es !! j = Some e' → (i < j)%nat → index e = index e' →
  st_edges (__find_box depth n (Store es xs ys)).2 !! j = Some e'.
Proof.
  intros Hi Hj Hlt Hidx.
  destruct (find_box_visits es depth n es xs ys) as (l & _ & Hall & Hst);
    [done|].
  rewrite Hst. simpl. rewrite mark_all_lookup_notin; [done|].
  intros Hin. apply list_elem_of_fmap in Hin as ([j' e2] & -> & Hin).
  rewrite Forall_forall in Hall. specialize (Hall _ Hin). simpl in *.
  apply list_find_Some in Hall as (Hj2 & _ & Hmin).
  rewrite Hj in Hj2. injection Hj2 as <-.
  by apply (Hmin i e).
Qed.

Lemma X5_witness :
  st_edges (__find_box 5 1 (Store two_chain_dup [] [])).2 !! 2%nat
  = Some e0_again.
Proof.
  apply (X5_find_box_ignores_later_duplicates 5 1 two_chain_dup [] [] 1 2 e0 e0_again).
  - reflexivity.
  - reflexivity.
  - lia.
  - reflexivity.
Defined.

(** X6: a traversal never ends, whatever the depth allowed, exactly when
    its start index leads into a connectivity cycle (the start need not
    lie on the cycle); and this is already decided by the outcome at
    depth [len(edges) + 1]. *)
Theorem X6_find_box_diverges_iff_cycle {num : Type} (n : Z)
    (es : list (Edge num)) (xs ys : list (list num)) :
  (reaches_cycle es n ↔
   ∀ depth, (__find_box depth n (Store es xs ys)).1 = Overrun) ∧
  (reaches_cycle es n ↔
   (__find_box (S (length es)) n (Store es xs ys)).1 = Overrun).
Proof.
  assert (reaches_cycle es n →
          ∀ depth, (__find_box depth n (Store es xs ys)).1 = Overrun) as Hfwd.
  { intros (m & Hr & Hcyc) depth.
    destruct (find_box_cycle es m Hcyc depth n es xs ys Hr) as (st' & -> & _);
      done. }
  assert ((__find_box (S (length es)) n (Store es xs ys)).1 = Overrun →
          reaches_cycle es n) as Hbwd.
  { intros Hrun.
    destruct (trail_or_reaches_cycle es n) as [(l & stop & Hl)|Hc]; [|done].
    pose proof (trail_length _ _ _ _ Hl) as Hlen.
    rewrite (find_box_trail es n l stop Hl) in Hrun;
      [|done|unfold trail_calls; destruct stop; lia].
    by destruct stop. }
  split; split; auto.
Qed.

(** Edge 2 is linked to edge 0 of the two-edge cycle: it lies on no cycle
    but leads into one. *)
Lemma two_cycle_tail_reaches_cycle :
  reaches_cycle (two_cycle ++ [mkEdge 2 0 0 0 0 0 0 0 0 0 50 60 50 60 false]) 2.
Proof.
  exists 0. split.
  - apply rtc_once. by eexists 2%nat, _.
  - eapply tc_l; [by eexists 0%nat, _|]. apply tc_once. by eexists 1%nat, _.
Qed.

Lemma X6_witness :
  (__find_box 500 2
     (Store (two_cycle ++ [mkEdge 2 0 0 0 0 0 0 0 0 0 50 60 50 60 false])
            [] [])).1 = Overrun.
Proof.
  apply (proj1 (proj1 (X6_find_box_diverges_iff_cycle 2
           (two_cycle ++ [mkEdge 2 0 0 0 0 0 0 0 0 0 50 60 50 60 false]) [] []))
           two_cycle_tail_reaches_cycle 500%nat).
Defined.

(** * Further properties of [plot_figures] *)

Section BoxGeometry.

Lemma Z_least_in m (l : list Z) : least_in Z.leb m l → m ∈ l ∧ ∀ a, a ∈ l → m ≤ a.
Proof.
  intros [(a & Ha & Hle) Hlow]. split.
  - apply Z.leb_le in Hle. specialize (Hlow a Ha). apply Z.leb_le in Hlow.
    by replace m with a by lia.
  - intros b Hb. by apply Z.leb_le, Hlow.
Qed.

Lemma Z_greatest_in m (l : list Z) :
  greatest_in Z.leb m l → m ∈ l ∧ ∀ a, a ∈ l → a ≤ m.
Proof.
  intros [(a & Ha & Hle) Hup]. split.
  - apply Z.leb_le in Hle. specialize (Hup a Ha). apply Z.leb_le in Hup.
    by replace m with a by lia.
  - intros b Hb. by apply Z.leb_le, Hup.
Qed.

Lemma np_min_None (xs : list (list Z)) : np_min Z.leb xs = None ↔ concat xs = [].
Proof. unfold np_min. by destruct (concat xs). Qed.

Lemma np_max_None (xs : list (list Z)) : np_max Z.leb xs = None ↔ concat xs = [].
Proof. unfold np_max. by destruct (concat xs). Qed.

(** The two computations of the limits agree. *)
Lemma axis_limits_fill_box shape xs ys :
  match fill_box shape xs ys with
  | Return ev =>
    ∃ bx by_, ev = EvFill bx by_ ∧
              axis_limits shape xs ys = Return (box_limits (bx, by_))
  | Raise e => axis_limits shape xs ys = Raise e
  | Overrun => False
  end.
Proof.
  unfold fill_box, axis_limits.
  destruct (np_min Z.leb xs), (np_max Z.leb xs), (np_min Z.leb ys),
    (np_max Z.leb ys); simpl; eauto.
Qed.

End BoxGeometry.

Section CornerLemmas.
Context {num : Type} (num_le num_lt : num → num → bool).
Context (minus_margin plus_margin : num → num).
Hypothesis Harith : margin_arithmetic num_le num_lt minus_margin plus_margin.

Local Notation "a ⪯ b" := (num_le a b = true) (at level 70).

Lemma le_trans' a b c : a ⪯ b → b ⪯ c → a ⪯ c.
Proof. apply (ord_trans _ (ma_order _ _ _ _ Harith)). Qed.

(** [max(a, b)] is one of its arguments and the other is below it. *)
Lemma py_max_cases a b :
  (py_max num_lt a b = a ∧ b ⪯ a) ∨ (py_max num_lt a b = b ∧ a ⪯ b).
Proof.
  unfold py_max. rewrite (ma_lt _ _ _ _ Harith).
  destruct (num_le b a) eqn:Hba; simpl; [by left|right]. split; [done|].
  destruct (ord_total _ (ma_order _ _ _ _ Harith) a b); congruence.
Qed.

Lemma py_min_cases a b :
  (py_min num_lt a b = a ∧ a ⪯ b) ∨ (py_min num_lt a b = b ∧ b ⪯ a).
Proof.
  unfold py_min. rewrite (ma_lt _ _ _ _ Harith).
  destruct (num_le a b) eqn:Hab; simpl; [by left|right]. split; [done|].
  destruct (ord_total _ (ma_order _ _ _ _ Harith) a b); congruence.
Qed.

Lemma py_max_above_l a b : a ⪯ py_max num_lt a b.
Proof.
  destruct (py_max_cases a b) as [[-> _]|[-> ?]]; [|done].
  apply (ord_refl _ (ma_order _ _ _ _ Harith)).
Qed.

Lemma py_max_above_r a b : b ⪯ py_max num_lt a b.
Proof.
  destruct (py_max_cases a b) as [[-> ?]|[-> _]]; [done|].
  apply (ord_refl _ (ma_order _ _ _ _ Harith)).
Qed.

Lemma py_max_least a b c : a ⪯ c → b ⪯ c → py_max num_lt a b ⪯ c.
Proof. by destruct (py_max_cases a b) as [[-> _]|[-> _]]. Qed.

Lemma py_min_below_l a b : py_min num_lt a b ⪯ a.
Proof.
  destruct (py_min_cases a b) as [[-> _]|[-> ?]]; [|done].
  apply (ord_refl _ (ma_order _ _ _ _ Harith)).
Qed.

Lemma py_min_below_r a b : py_min num_lt a b ⪯ b.
Proof.
  destruct (py_min_cases a b) as [[-> ?]|[-> _]]; [done|].
  apply (ord_refl _ (ma_order _ _ _ _ Harith)).
Qed.

Lemma py_min_greatest a b c : c ⪯ a → c ⪯ b → c ⪯ py_min num_lt a b.
Proof. by destruct (py_min_cases a b) as [[-> _]|[-> _]]. Qed.

(** The low corner of a side: not below [zero], and within the margin of
    every collected coordinate. *)
Lemma low_corner zero lo (l : list num) c :
  least_in num_le lo l → c ∈ l →
  zero ⪯ py_max num_lt (minus_margin lo) zero ∧
  py_max num_lt (minus_margin lo) zero ⪯ py_max num_lt (minus_margin c) zero ∧
  (zero ⪯ c → py_max num_lt (minus_margin lo) zero ⪯ c).
Proof.
  intros [_ Hlow] Hc. specialize (Hlow c Hc).
  split; [apply py_max_above_r|]. split.
  - apply py_max_least; [|apply py_max_above_r].
    eapply le_trans'; [|apply py_max_above_l].
    by apply (ma_minus_mono _ _ _ _ Harith).
  - intros Hz. apply py_max_least; [|done].
    eapply le_trans'; [apply (ma_minus_below _ _ _ _ Harith)|done].
Qed.

(** The high corner of a side. *)
Lemma high_corner bound hi (l : list num) c :
  greatest_in num_le hi l → c ∈ l →
  py_min num_lt (plus_margin hi) bound ⪯ bound ∧
  py_min num_lt (plus_margin c) bound ⪯ py_min num_lt (plus_margin hi) bound ∧
  (c ⪯ bound → c ⪯ py_min num_lt (plus_margin hi) bound).
Proof.
  intros [_ Hup] Hc. specialize (Hup c Hc).
  split; [apply py_min_below_r|]. split.
  - apply py_min_greatest; [|apply py_min_below_r].
    eapply le_trans'; [apply py_min_below_l|].
    by apply (ma_plus_mono _ _ _ _ Harith).
  - intros Hb. apply py_min_greatest; [|done].
    eapply le_trans'; [|apply (ma_plus_above _ _ _ _ Harith)]. done.
Qed.

End CornerLemmas.

(** The integers with their order and exact arithmetic are an instance,
    and on them the corners are those of [fill_box]. *)
Lemma Z_margin_arithmetic :
  margin_arithmetic Z.leb Z.ltb (λ v, v - box_margin) (λ v, v + box_margin).
Proof.
  unfold box_margin. split; [apply Z_leb_total_order|..]; intros.
  - destruct (Z.ltb_spec a b), (Z.leb_spec b a); simpl; (done || lia).
  - apply Z.leb_le. lia.
  - apply Z.leb_le. apply Z.leb_le in H. lia.
  - apply Z.leb_le. lia.
  - apply Z.leb_le. apply Z.leb_le in H. lia.
Qed.

Lemma fill_box_corners shape xs ys :
  fill_box shape xs ys
  = match box_corners Z.leb Z.ltb (λ v, v - box_margin) (λ v, v + box_margin)
            0 shape xs ys with
    | Return (box_x, box_y) => Return (EvFill box_x box_y)
    | Raise e => Raise e
    | Overrun => Overrun
    end.
Proof.
  assert (∀ a b, Z.max a b = py_max Z.ltb a b) as Hmax.
  { intros a b. unfold py_max. destruct (Z.ltb_spec a b); lia. }
  assert (∀ a b, Z.min a b = py_min Z.ltb a b) as Hmin.
  { intros a b. unfold py_min. destruct (Z.ltb_spec b a); lia. }
  unfold fill_box, box_corners.
  destruct (np_min Z.leb xs), (np_max Z.leb xs), (np_min Z.leb ys),
    (np_max Z.leb ys); try done.
  cbv zeta. by rewrite !Hmax, !Hmin.
Qed.

(** X7: for coordinates compared by a total order (no NaN) and a margin
    arithmetic that neither wraps around nor reverses an order, the
    corners handed to [pl.fill] are those of the rectangle
    [x_min, x_max] x [y_min, y_max] with [x_min >= 0],
    [x_max <= shape[0]], [y_min >= 0], [y_max <= shape[1]]; around every
    collected coordinate the rectangle keeps the margin as far as these
    bounds allow, so every collected coordinate inside the bounds lies
    in it.  With no coordinate collected the computation raises
    ValueError, whatever the arithmetic. *)
Theorem X7_box_corners_clipped_margin {num : Type}
    (num_le num_lt : num → num → bool) (minus_margin plus_margin : num → num)
    (zero : num) (shape : num * num) (xs ys : list (list num)) :
  (concat xs = [] ∨ concat ys = [] →
   box_corners num_le num_lt minus_margin plus_margin zero shape xs ys
   = Raise ValueError) ∧
  (margin_arithmetic num_le num_lt minus_margin plus_margin →
   concat xs ≠ [] → concat ys ≠ [] →
   ∃ x0 x1 y0 y1,
     box_corners num_le num_lt minus_margin plus_margin zero shape xs ys
     = Return ([x0; x0; x1; x1], [y0; y1; y1; y0]) ∧
     num_le zero x0 = true ∧ num_le x1 shape.1 = true ∧
     num_le zero y0 = true ∧ num_le y1 shape.2 = true ∧
     (∀ c, c ∈ concat xs →
        num_le x0 (py_max num_lt (minus_margin c) zero) = true ∧
        num_le (py_min num_lt (plus_margin c) shape.1) x1 = true ∧
        (num_le zero c = true → num_le c shape.1 = true →
         num_le x0 c = true ∧ num_le c x1 = true)) ∧
     (∀ c, c ∈ concat ys →
        num_le y0 (py_max num_lt (minus_margin c) zero) = true ∧
        num_le (py_min num_lt (plus_margin c) shape.2) y1 = true ∧
        (num_le zero c = true → num_le c shape.2 = true →
         num_le y0 c = true ∧ num_le c y1 = true))).
Proof.
  split.
  - intros [H|H]; unfold box_corners, np_min, np_max; rewrite H; [done|].
    by destruct (concat xs).
  - intros Harith Hx Hy. unfold box_corners.
    pose proof (ma_order _ _ _ _ Harith) as Hord.
    destruct (np_min_is_Some num_le _ Hx) as [xlo Hxlo].
    destruct (np_max_is_Some num_le _ Hx) as [xhi Hxhi].
    destruct (np_min_is_Some num_le _ Hy) as [ylo Hylo].
    destruct (np_max_is_Some num_le _ Hy) as [yhi Hyhi].
    rewrite Hxlo, Hxhi, Hylo, Hyhi. cbv zeta.
    apply (np_min_least _ Hord) in Hxlo. apply (np_max_greatest _ Hord) in Hxhi.
    apply (np_min_least _ Hord) in Hylo. apply (np_max_greatest _ Hord) in Hyhi.
    eexists _, _, _, _. split; [reflexivity|].
    split; [by eapply py_max_above_r|]. split; [by eapply py_min_below_r|].
    split; [by eapply py_max_above_r|]. split; [by eapply py_min_below_r|].
    split; intros c Hc.
    + destruct (low_corner _ _ _ _ Harith zero _ _ _ Hxlo Hc) as (_ & Hm & Hin).
      destruct (high_corner _ _ _ _ Harith shape.1 _ _ _ Hxhi Hc) as (_ & Hm' & Hin').
      split; [done|]. split; [done|]. intros Hz Hb. split; [by apply Hin|by apply Hin'].
    + destruct (low_corner _ _ _ _ Harith zero _ _ _ Hylo Hc) as (_ & Hm & Hin).
      destruct (high_corner _ _ _ _ Harith shape.2 _ _ _ Hyhi Hc) as (_ & Hm' & Hin').
      split; [done|]. split; [done|]. intros Hz Hb. split; [by apply Hin|by apply Hin'].
Qed.

Lemma X7_witness :
  ∃ x0 x1 y0 y1,
    box_corners Z.leb Z.ltb (λ v, v - box_margin) (λ v, v + box_margin) 0
      (100, 60) [[25; 45]; [0; 20]] [[53; 93]; [0; 43]]
    = Return ([x0; x0; x1; x1], [y0; y1; y1; y0]) ∧
    Z.leb 0 x0 = true ∧ Z.leb x1 (100, 60).1 = true ∧
    Z.leb 0 y0 = true ∧ Z.leb y1 (100, 60).2 = true ∧
    (∀ c, c ∈ concat [[25; 45]; [0; 20]] →
       Z.leb x0 (py_max Z.ltb (c - box_margin) 0) = true ∧
       Z.leb (py_min Z.ltb (c + box_margin) (100, 60).1) x1 = true ∧
       (Z.leb 0 c = true → Z.leb c (100, 60).1 = true →
        Z.leb x0 c = true ∧ Z.leb c x1 = true)) ∧
    (∀ c, c ∈ concat [[53; 93]; [0; 43]] →
       Z.leb y0 (py_max Z.ltb (c - box_margin) 0) = true ∧
       Z.leb (py_min Z.ltb (c + box_margin) (100, 60).2) y1 = true ∧
       (Z.leb 0 c = true → Z.leb c (100, 60).2 = true →
        Z.leb y0 c = true ∧ Z.leb c y1 = true)).
Proof.
  apply (proj2 (X7_box_corners_clipped_margin Z.leb Z.ltb
                  (λ v, v - box_margin) (λ v, v + box_margin) 0 (100, 60)
                  [[25; 45]; [0; 20]] [[53; 93]; [0; 43]])).
  - apply Z_margin_arithmetic.
  - discriminate.
  - discriminate.
Defined.

(** On the example the box is [15, 55] x [43, 60]: the margin is kept
    below, and cut at the upper bound 60 of the second axis. *)
Example box_corners_example :
  box_corners Z.leb Z.ltb (λ v, v - box_margin) (λ v, v + box_margin) 0
    (100, 60) [[25; 45]] [[53; 93]]
  = Return ([15; 15; 55; 55], [43; 60; 60; 43]).
Proof. reflexivity. Qed.

Section LoopFlags.
Implicit Types (es : list (Edge Z)) (e : Edge Z) (log : list plot_event).

Lemma flagged_same_or_marked es es' i :
  Forall2 same_or_marked es es' → flagged es i → flagged es' i.
Proof.
  intros H (e & Hi & Hb).
  destruct (Forall2_lookup_l _ _ _ _ _ H Hi) as (e' & Hi' & [->| ->]);
    by eexists.
Qed.

(** A run of the box loop that returns has changed nothing but flags and
    has left every position it visited marked. *)
Lemma plot_boxes_flags depth shape positions :
  ∀ es log es' log',
    plot_boxes depth shape positions es log = (Return tt, (es', log')) →
    Forall2 same_or_marked es es' ∧ ∀ i, i ∈ positions → flagged es' i.
Proof.
  induction positions as [|i rest IH]; intros es log es' log' Hrun.
  - injection Hrun as <- <-. split; [apply marked_refl|].
    intros i Hi. by apply elem_of_nil in Hi.
  - simpl in Hrun. destruct (es !! i) as [e|] eqn:Hi; [|done].
    destruct (box_plotted e) eqn:Hb.
    + destruct (IH _ _ _ _ Hrun) as [Hm Hfl]. split; [done|].
      intros j [->|Hj]%elem_of_cons; [|by apply Hfl].
      eapply flagged_same_or_marked; [done|]. by exists e.
    + pose proof (find_box_marks depth (index e) (Store es [] [])) as Hfm.
      destruct (__find_box depth (index e) (Store es [] [])) as [[v|err|] st];
        [|done|done].
      destruct (fill_box shape (st_xs st) (st_ys st)) as [ev|err|]; [|done|done].
      destruct (IH _ _ _ _ Hrun) as [Hm Hfl]. simpl in Hfm. split.
      * eapply marked_trans; [|done].
        eapply marked_trans; [done|apply marked_alter].
      * intros j [->|Hj]%elem_of_cons; [|by apply Hfl].
        eapply flagged_same_or_marked; [done|].
        destruct (Forall2_lookup_l _ _ _ _ _ Hfm Hi) as (e2 & Hi2 & _).
        exists (set_box_plotted e2). by rewrite list_lookup_alter_eq, Hi2.
Qed.

(** On marked positions the box loop does nothing. *)
Lemma plot_boxes_all_flagged depth shape positions es log :
  (∀ i, i ∈ positions → flagged es i) →
  plot_boxes depth shape positions es log = (Return tt, (es, log)).
Proof.
  induction positions as [|i rest IH]; intros Hfl; [done|].
  destruct (Hfl i) as (e & Hi & Hb); [left|].
  simpl. rewrite Hi, Hb. apply IH. intros j Hj. apply Hfl. by right.
Qed.


Section Simulation.
Variable render_int : Z → string.

(** The loop of the single figures follows the box loop step for step. *)
Lemma plot_singles_follows depth shape out positions :
  ∀ es log flog r es' log',
    plot_boxes depth shape positions es log = (r, (es', log')) →
    ∃ flog' dcalls dfills,
      plot_singles render_int depth shape out positions es flog = (r, (es', flog')) ∧
      calls log' = calls log ++ dcalls ∧
      fills log' = fills log ++ dfills ∧
      figure_calls flog' = figure_calls flog ++ dcalls ∧
      (r = Return tt →
       figure_axes flog' = figure_axes flog ++ (box_limits <$> dfills) ∧
       figure_files flog'
       = figure_files flog ++ (figure_name render_int out <$> dcalls)).
Proof.
  induction positions as [|i rest IH]; intros es log flog r es' log' Hrun.
  - injection Hrun as <- <- <-. exists flog, [], [].
    rewrite !app_nil_r. by repeat split.
  - simpl in Hrun |- *. destruct (es !! i) as [e|] eqn:Hi.
    2: { injection Hrun as <- <- <-. exists flog, [], [].
         rewrite !app_nil_r. by repeat split. }
    destruct (box_plotted e) eqn:Hb; [by apply IH|].
    destruct (__find_box depth (index e) (Store es [] [])) as [[v|err|] st].
    + pose proof (axis_limits_fill_box shape (st_xs st) (st_ys st)) as Hax.
      destruct (fill_box shape (st_xs st) (st_ys st)) as [ev|err|]; [| |done].
      * destruct Hax as (bx & by_ & -> & ->).
        destruct (IH _ _ (((flog ++ [FgFindBox (index e)]) ++
                   [FgAxis (box_limits (bx, by_));
                    FgSavefig (figure_name render_int out (index e))]))
                   _ _ _ Hrun)
          as (flog' & dcalls & dfills & Hrun2 & Hc & Hf & Hfc & Hrest).
        exists flog', (index e :: dcalls), ((bx, by_) :: dfills).
        split; [done|].
        unfold calls, fills, figure_calls, figure_axes, figure_files in *.
        rewrite !omap_app in *. simpl in *.
        rewrite !app_nil_r, <- ?(assoc_L (++)) in *. simpl in *.
        repeat split; try done.
        -- by apply Hrest.
        -- by apply Hrest.
      * rewrite Hax. injection Hrun as <- <- <-.
        exists (flog ++ [FgFindBox (index e)]), [index e], [].
        unfold calls, fills, figure_calls in *. rewrite !omap_app. simpl.
        rewrite !app_nil_r. by repeat split.
    + injection Hrun as <- <- <-.
      exists (flog ++ [FgFindBox (index e)]), [index e], [].
      unfold calls, fills, figure_calls in *. rewrite !omap_app. simpl.
      rewrite !app_nil_r. by repeat split.
    + injection Hrun as <- <- <-.
      exists (flog ++ [FgFindBox (index e)]), [index e], [].
      unfold calls, fills, figure_calls in *. rewrite !omap_app. simpl.
      rewrite !app_nil_r. by repeat split.
Qed.

End Simulation.

End LoopFlags.

(** X8: when the box loop of [plot_figures] returns, every edge of the
    collection carries [box_plotted = True], whatever the flags were
    before, and nothing but flags has changed. *)
Theorem X8_plot_boxes_marks_every_edge (depth : nat) (shape : Z * Z)
    (es es' : list (Edge Z)) (log : list plot_event) :
  plot_figures_boxes depth shape es = (Return tt, (es', log)) →
  Forall (λ e, box_plotted e = true) es' ∧ Forall2 same_or_marked es es'.
Proof.
  intros Hrun. destruct (plot_boxes_flags _ _ _ _ _ _ _ Hrun) as [Hm Hfl].
  split; [|done]. apply Forall_lookup. intros i e Hi.
  destruct (Hfl i) as (e2 & Hi2 & Hb).
  - apply elem_of_seq. split; [lia|]. simpl.
    rewrite (Forall2_length _ _ _ Hm). by eapply lookup_lt_Some.
  - congruence.
Qed.

Lemma X8_witness :
  Forall (λ e, box_plotted e = true) [set_box_plotted e0; set_box_plotted e1] ∧
  Forall2 same_or_marked two_chain [set_box_plotted e0; set_box_plotted e1].
Proof.
  apply (X8_plot_boxes_marks_every_edge 2 (100, 100) two_chain _
           [EvFindBox 0; EvFill [0; 0; 30; 30] [0; 53; 53; 0];
            EvFindBox 1; EvFill [0; 0; 55; 55] [0; 100; 100; 0]]).
  reflexivity.
Defined.

(** X9: running the box loop again on the edges it has left draws
    nothing: every edge is skipped, no invocation is made and the edges
    stay as they are.  (This is why [plot_figures] resets the flags
    before its second loop.) *)
Theorem X9_plot_boxes_again_draws_nothing (depth depth2 : nat) (shape shape2 : Z * Z)
    (es es' : list (Edge Z)) (log : list plot_event) :
  plot_figures_boxes depth shape es = (Return tt, (es', log)) →
  plot_figures_boxes depth2 shape2 es' = (Return tt, (es', [])).
Proof.
  intros Hrun. destruct (plot_boxes_flags _ _ _ _ _ _ _ Hrun) as [Hm Hfl].
  apply plot_boxes_all_flagged. intros i Hi. apply Hfl.
  by rewrite (Forall2_length _ _ _ Hm).
Qed.

Lemma X9_witness :
  plot_figures_boxes 0 (5, 5) [set_box_plotted e0; set_box_plotted e1]
  = (Return tt, ([set_box_plotted e0; set_box_plotted e1], [])).
Proof.
  apply (X9_plot_boxes_again_draws_nothing 2 0 (100, 100) (5, 5) two_chain _
           [EvFindBox 0; EvFill [0; 0; 30; 30] [0; 53; 53; 0];
            EvFindBox 1; EvFill [0; 0; 55; 55] [0; 100; 100; 0]]).
  reflexivity.
Defined.



(** * Further properties of the output path *)

Section PathLemmas.





Lemma default_path_last_char (name : string) :
  last_char ("./" +:+ (name +:+ "/")) = Some "/"%char.
Proof.
  change ("./" +:+ ?x) with (String "."%char (String "/"%char x)).
  rewrite !last_char_cons; [apply last_char_app_char| |done].
  by destruct name.
Qed.

Lemma init_output_path_None (filename : string) :
  init_output_path filename None
  = Return ("./" +:+ (before_first "."%char (basename filename) +:+ "/")).
Proof.
  unfold init_output_path. rewrite default_path_last_char.
  by rewrite decide_False by (intros ?; done).
Qed.

Lemma init_output_path_last_char (filename : string) (output_path : option string)
    (p : string) :
  init_output_path filename output_path = Return p →
  last_char p = Some "/"%char.
Proof.
  destruct output_path as [s|].
  - unfold init_output_path.
    destruct (last_char s) as [c|] eqn:Hc; [|done].
    destruct (decide (c ≠ "/"%char)) as [Hne|Heq]; intros [= <-].
    + apply last_char_app_char.
    + rewrite Hc. f_equal. by destruct (decide (c = "/"%char)).
  - rewrite init_output_path_None. intros [= <-]. apply default_path_last_char.
Qed.

End PathLemmas.


(** X12: a supplied path is kept as it is when it ends with ['/'] and
    gets one ['/'] appended otherwise; the path [__init__] has set is
    left unchanged when supplied again. *)
Theorem X12_supplied_output_path (filename : string) (output_path : option string)
    (p : string) :
  init_output_path filename output_path = Return p →
  (∀ s, output_path = Some s →
     (last_char s = Some "/"%char ∧ p = s) ∨
     (last_char s ≠ Some "/"%char ∧ p = s +:+ "/")) ∧
  (∀ filename', init_output_path filename' (Some p) = Return p).
Proof.
  intros Hinit. split.
  - intros s ->. unfold init_output_path in Hinit.
    destruct (last_char s) as [c|]; [|done].
    destruct (decide (c ≠ "/"%char)) as [Hne|Heq]; injection Hinit as <-.
    + right. split; [congruence|done].
    + left. split; [|done]. f_equal. by destruct (decide (c = "/"%char)).
  - intros filename'.
    pose proof (init_output_path_last_char _ _ _ Hinit) as Hl.
    unfold init_output_path. rewrite Hl.
    by rewrite decide_False by (intros ?; done).
Qed.

Lemma X12_witness :
  (∀ s, Some "out" = Some s →
     (last_char s = Some "/"%char ∧ "out/" = s) ∨
     (last_char s ≠ Some "/"%char ∧ "out/" = s +:+ "/")) ∧
  (∀ filename', init_output_path filename' (Some "out/") = Return "out/").
Proof.
  apply (X12_supplied_output_path "long.fits" (Some "out") "out/").
  reflexivity.
Defined.

(** * The report after plotting *)

Section ReportAfterPlot.
Context {num : Type}.
Variable render_d : nat → Z → string.
Variable render_f : nat → nat → num → string.

Lemma write_lines_reset (es : list (Edge num)) (fp : string) :
  write_lines render_d render_f (reset_box_plotted <$> es) fp
  = write_lines render_d render_f es fp.
Proof.
  revert fp. induction es as [|e es IH]; intros fp; [done|].
  rewrite fmap_cons, !write_lines_cons.
  change (line_args (reset_box_plotted e)) with (line_args e).
  destruct (py_format render_d render_f line_format (line_args e)); [|done].
  apply IH.
Qed.

(** The report does not read the flags. *)
Lemma write_outputs_same_links (es es' : list (Edge num)) :
  same_links es es' →
  write_outputs render_d render_f es = write_outputs render_d render_f es'.
Proof.
  intros Hs. unfold write_outputs.
  by rewrite <- (write_lines_reset es), <- (write_lines_reset es'), Hs.
Qed.

End ReportAfterPlot.

Section PlotFrame.
Implicit Types (es : list (Edge Z)) (e : Edge Z) (log : list plot_event).

(** Whatever its outcome, the box loop changes nothing but flags. *)
Lemma plot_boxes_same_links depth shape positions :
  ∀ es log r es' log',
    plot_boxes depth shape positions es log = (r, (es', log')) →
    same_links es es'.
Proof.
  induction positions as [|i rest IH]; intros es log r es' log' Hrun.
  - by injection Hrun as <- <- <-.
  - simpl in Hrun. destruct (es !! i) as [e|] eqn:Hi;
      [|by injection Hrun as <- <- <-].
    destruct (box_plotted e) eqn:Hb; [by eapply IH|].
    pose proof (find_box_marks depth (index e) (Store es [] [])) as Hfm.
    apply marked_same_links in Hfm.
    destruct (__find_box depth (index e) (Store es [] [])) as [[v|err|] st];
      simpl in Hfm; [|by injection Hrun as <- <- <-|by injection Hrun as <- <- <-].
    destruct (fill_box shape (st_xs st) (st_ys st)) as [ev|err|];
      [|by injection Hrun as <- <- <-|by injection Hrun as <- <- <-].
    eapply same_links_trans; [done|].
    eapply same_links_trans; [apply same_links_alter|by eapply IH].
Qed.

Lemma reset_flags_same_links es : same_links es (reset_flags es).
Proof.
  unfold same_links, reset_flags. rewrite <- list_fmap_compose.
  by apply list_fmap_ext.
Qed.

(** Whatever its outcome, [plot_figures] changes nothing but flags. *)
Lemma plot_figures_streaks_same_links render_int depth shape out es r es3 log flog :
  plot_figures_streaks render_int depth shape out es = (r, (es3, log, flog)) →
  same_links es es3.
Proof.
  unfold plot_figures_streaks, plot_figures_boxes.
  destruct (plot_boxes depth shape (seq 0 (length es)) es [])
    as [r1 [es1 log1]] eqn:Hrun1.
  apply plot_boxes_same_links in Hrun1.
  destruct r1 as [[]|err|]; [|by intros [= <- <- <- <-]|by intros [= <- <- <- <-]].
  cbv zeta.
  destruct (plot_boxes depth shape (seq 0 (length (reset_flags es1)))
              (reset_flags es1) []) as [r2 [es2 log2]] eqn:Hrun2.
  destruct (plot_singles_follows render_int depth shape out _ _ _
              [FgAxis [0; shape.1; 0; shape.2];
               FgSavefig (out +:+ "all.png")] _ _ _ Hrun2)
    as (flog' & _ & _ & -> & _).
  apply plot_boxes_same_links in Hrun2.
  intros [= <- <- <- <-].
  eapply same_links_trans; [done|].
  eapply same_links_trans; [apply reset_flags_same_links|done].
Qed.

End PlotFrame.

(** X13: whatever [plot_figures] does (it returns, or it fails on the
    way), the edges it leaves differ from the ones it was given in their
    [box_plotted] flags only, and [write_outputs] writes the same report
    after [plot_figures] as before. *)
Theorem X13_report_unchanged_by_plot_figures
    (render_d : nat → Z → string) (render_f : nat → nat → Z → string)
    (render_int : Z → string) (depth : nat) (shape : Z * Z) (output_path : string)
    (es : list (Edge Z)) :
  same_links es
    (plot_figures_streaks render_int depth shape output_path es).2.1.1 ∧
  write_outputs render_d render_f
    (plot_figures_streaks render_int depth shape output_path es).2.1.1
  = write_outputs render_d render_f es.
Proof.
  destruct (plot_figures_streaks render_int depth shape output_path es)
    as [r [[es3 log] flog]] eqn:Hrun.
  apply plot_figures_streaks_same_links in Hrun. simpl.
  split; [done|]. symmetry. by apply write_outputs_same_links.
Qed.

(** * The displayed image and the contour loop *)

(** X14: the displayed copy of the image has the shape of the image.  A
    pixel that compares neither below [lo] nor above [hi] (a NaN pixel
    among them) is shown as it is, a pixel below [lo] is shown as [lo],
    and a pixel above [hi] and not below [lo] as [hi].  Unless
    [hi < lo], no shown pixel compares below [lo] or above [hi].  Of the
    comparison only [a < a] being False is used, which holds of NaN
    too. *)
Theorem X14_cut_image_clamps {num : Type} (num_lt : num → num → bool)
    (lo hi : num) (image : list (list num)) :
  (∀ a, num_lt a a = false) →
  length (cut_image num_lt lo hi image) = length image ∧
  (∀ i j v, image !! i = Some v → v !! j = None ∨
      ∃ row px, cut_image num_lt lo hi image !! i = Some row ∧
                length row = length v ∧ v !! j = Some px ∧
                row !! j = Some (cut_pixel num_lt lo hi px)) ∧
  (∀ v, num_lt v lo = false → num_lt hi v = false →
        cut_pixel num_lt lo hi v = v) ∧
  (∀ v, num_lt v lo = true → cut_pixel num_lt lo hi v = lo) ∧
  (∀ v, num_lt v lo = false → num_lt hi v = true →
        cut_pixel num_lt lo hi v = hi) ∧
  (num_lt hi lo = false →
   ∀ v, num_lt (cut_pixel num_lt lo hi v) lo = false ∧
        num_lt hi (cut_pixel num_lt lo hi v) = false).
Proof.
  intros Hirr. split; [apply length_fmap|]. split; [|split; [|split; [|split]]].
  - intros i j v Hi. destruct (v !! j) as [px|] eqn:Hj; [right|by left].
    exists (cut_pixel num_lt lo hi <$> v), px.
    unfold cut_image. rewrite list_lookup_fmap, Hi. simpl.
    rewrite length_fmap, list_lookup_fmap, Hj. done.
  - intros v Hlo Hhi. unfold cut_pixel. by rewrite Hlo, Hhi.
  - intros v Hlo. unfold cut_pixel. by rewrite Hlo.
  - intros v Hlo Hhi. unfold cut_pixel. by rewrite Hlo, Hhi.
  - intros Hhilo v. unfold cut_pixel.
    destruct (num_lt v lo) eqn:Hlo; [by rewrite Hirr|].
    destruct (num_lt hi v) eqn:Hhi; [by rewrite Hirr|done].
Qed.

Lemma X14_witness :
  length (cut_image Z.ltb 0 9 [[-3; 4]; [12; 9]]) = length [[-3; 4]; [12; 9]] ∧
  (∀ i j v, [[-3; 4]; [12; 9]] !! i = Some v → v !! j = None ∨
      ∃ row px, cut_image Z.ltb 0 9 [[-3; 4]; [12; 9]] !! i = Some row ∧
                length row = length v ∧ v !! j = Some px ∧
                row !! j = Some (cut_pixel Z.ltb 0 9 px)) ∧
  (∀ v, Z.ltb v 0 = false → Z.ltb 9 v = false → cut_pixel Z.ltb 0 9 v = v) ∧
  (∀ v, Z.ltb v 0 = true → cut_pixel Z.ltb 0 9 v = 0) ∧
  (∀ v, Z.ltb v 0 = false → Z.ltb 9 v = true → cut_pixel Z.ltb 0 9 v = 9) ∧
  (Z.ltb 9 0 = false →
   ∀ v, Z.ltb (cut_pixel Z.ltb 0 9 v) 0 = false ∧
        Z.ltb 9 (cut_pixel Z.ltb 0 9 v) = false).
Proof.
  apply (X14_cut_image_clamps Z.ltb 0 9 [[-3; 4]; [12; 9]]).
  intros a. apply Z.ltb_irrefl.
Defined.

(** A comparison in which one value compares with nothing, as NaN does:
    a pixel holding it is shown as it is. *)
Example cut_pixel_incomparable :
  cut_pixel (λ a b : option Z,
               match a, b with Some x, Some y => Z.ltb x y | _, _ => false end)
    (Some 0) (Some 9) None = None.
Proof. reflexivity. Qed.

Section ContourLoop.
Context {num : Type}.
Implicit Types (edge : contour_edge (num := num)).

Lemma labelable_lookups edge :
  labelable edge →
  length (ce_x edge) = length (ce_y edge) ∧
  is_Some (ce_x edge !! 0%nat) ∧ is_Some (ce_y edge !! 1%nat).
Proof.
  unfold labelable, drawable. rewrite !lookup_lt_is_Some. lia.
Qed.

Lemma plot_contours_step edge (rest : list (contour_edge (num := num))) log :
  labelable edge →
  plot_contours (edge :: rest) log
  = plot_contours rest (log ++ contour_drawing edge).
Proof.
  intros (Hlen & [x0 Hx] & [y1 Hy])%labelable_lookups.
  simpl. unfold contour_drawing. rewrite decide_True_pi with (HP := Hlen) by done.
  rewrite Hx, Hy. by rewrite <- (assoc_L (++)).
Qed.

Lemma plot_contours_labelable (edges : list (contour_edge (num := num))) :
  Forall labelable edges →
  ∀ log, plot_contours edges log
         = (Return tt, log ++ concat (contour_drawing <$> edges)).
Proof.
  induction 1 as [|edge rest Hok _ IH]; intros log.
  - simpl. by rewrite app_nil_r.
  - rewrite plot_contours_step, IH by done.
    by rewrite fmap_cons, <- (assoc_L (++)).
Qed.

(** The loop runs through a prefix of contours it can label. *)
Lemma plot_contours_prefix (before rest : list (contour_edge (num := num))) :
  Forall labelable before →
  ∀ log, plot_contours (before ++ rest) log
         = plot_contours rest (log ++ concat (contour_drawing <$> before)).
Proof.
  induction 1 as [|edge before' Hok _ IH]; intros log.
  - simpl. by rewrite app_nil_r.
  - rewrite <- app_comm_cons, plot_contours_step, IH by done.
    rewrite fmap_cons.
    change (concat (?a :: ?l)) with (a ++ concat l).
    by rewrite <- !(assoc_L (++)).
Qed.

End ContourLoop.

(** X15: the contour loop draws and labels every contour when each has
    as many [x] as [y] coordinates and at least two points (the label is
    put at [(x[0], y[1])]).  Otherwise it stops at the first contour
    that has not, before any later contour: with ValueError from
    [pl.plot], nothing of this contour drawn, when its [x] and [y]
    differ in length; with IndexError from the subscripts, after having
    drawn the contour's line, when it has fewer than two points. *)
Theorem X15_plot_contours_needs_two_points {num : Type}
    (edges : list (contour_edge (num := num))) (log : list contour_event) :
  (Forall labelable edges →
   plot_contours edges log
   = (Return tt, log ++ concat (contour_drawing <$> edges))) ∧
  (∀ before bad after,
     edges = before ++ bad :: after →
     Forall labelable before → ¬ labelable bad →
     (¬ drawable bad ∧
      plot_contours edges log
      = (Raise ValueError, log ++ concat (contour_drawing <$> before))) ∨
     (drawable bad ∧ (length (ce_y bad) < 2)%nat ∧
      plot_contours edges log
      = (Raise IndexError,
         log ++ concat (contour_drawing <$> before) ++
         [CvPlot (ce_x bad) (ce_y bad)]))).
Proof.
  split; [intros H; by apply plot_contours_labelable|].
  intros before bad after -> Hok Hbad.
  rewrite plot_contours_prefix by done. simpl.
  unfold labelable, drawable in *.
  destruct (decide (length (ce_x bad) = length (ce_y bad))) as [Hlen|Hlen];
    [right|left; by split].
  assert (length (ce_y bad) < 2)%nat as Hshort by lia.
  split; [done|]. split; [done|].
  rewrite <- (assoc_L (++)).
  destruct (ce_x bad !! 0%nat) as [x0|] eqn:Hx; [|done].
  destruct (ce_y bad !! 1%nat) as [y1|] eqn:Hy; [|done].
  apply lookup_lt_Some in Hy. lia.
Qed.

Lemma X15_witness :
  (¬ drawable (mkContourEdge 1 [5] [6; 8; 9]) ∧
   plot_contours
     [mkContourEdge 0 [1; 2] [3; 4]; mkContourEdge 1 [5] [6; 8; 9]] []
   = (Raise ValueError,
      [] ++ concat (contour_drawing <$> [mkContourEdge 0 [1; 2] [3; 4]]))) ∨
  (drawable (mkContourEdge 1 [5] [6; 8; 9]) ∧
   (length (ce_y (mkContourEdge 1 [5] [6; 8; 9])) < 2)%nat ∧
   plot_contours
     [mkContourEdge 0 [1; 2] [3; 4]; mkContourEdge 1 [5] [6; 8; 9]] []
   = (Raise IndexError,
      [] ++ concat (contour_drawing <$> [mkContourEdge 0 [1; 2] [3; 4]]) ++
      [CvPlot (ce_x (mkContourEdge 1 [5] [6; 8; 9]))
              (ce_y (mkContourEdge 1 [5] [6; 8; 9]))])).
Proof.
  apply (proj2 (X15_plot_contours_needs_two_points
                  [mkContourEdge 0 [1; 2] [3; 4]; mkContourEdge 1 [5] [6; 8; 9]] [])
               [mkContourEdge 0 [1; 2] [3; 4]] (mkContourEdge 1 [5] [6; 8; 9]) []).
  - reflexivity.
  - repeat constructor.
  - intros [H _]. discriminate H.
Defined.

(** A contour of a single point is drawn and then fails to be labelled;
    one whose [x] and [y] differ in length is not drawn. *)
Example plot_contours_one_point :
  plot_contours [mkContourEdge 0 [1; 2] [3; 4]; mkContourEdge 1 [5] [6]] []
  = (Raise IndexError, [CvPlot [1; 2] [3; 4]; CvText 1 4 0; CvPlot [5] [6]]).
Proof. reflexivity. Qed.

Example plot_contours_ragged :
  plot_contours [mkContourEdge 0 [1; 2] [3; 4]; mkContourEdge 1 [5] [6; 8; 9]] []
  = (Raise ValueError, [CvPlot [1; 2] [3; 4]; CvText 1 4 0]).
Proof. reflexivity. Qed.
